(** * tesa: the agent tool registry of [backend/app/tools.py]

    A shallow embedding of the module: the CSV writer behind [create_csv],
    the two object-storage upload backends, the directory listing, the
    three [BaseTool] wrappers, the memoised retrieval-tool factory, the
    [AvailableTools] enumeration, the [TOOLS] registry and the start-up
    loop at the end of the module.

    Python strings are modelled as [string] (a sequence of 8-bit
    characters); every character the code inspects (slash, comma, quote,
    carriage return, line feed) is ASCII.  Effects (environment variables,
    the local disk, the object store, standard output) are threaded through
    an explicit [World]; a computation returns a value or raises.

    The local disk is a POSIX file system without links, with names
    compared character by character.  It is a map from paths to nodes,
    read under the text of the path; the paths it describes are the
    canonical ones relative to the working directory ([c1/c2/.../cn],
    no component empty, [.] or [..]).  What the operating system answers
    beyond that (permissions, a full disk, a name that is too long, a
    path in another spelling) is an oracle of the world, [os_fault]. *)

From Stdlib Require Import Ascii.
From stdpp Require Import gmap strings list.

(** ** Characters and strings *)

Definition CR : ascii := "013"%char.
Definition LF : ascii := "010"%char.
Definition DQUOTE : ascii := "034"%char.
Definition SLASH : ascii := "/"%char.
Definition NUL : ascii := "000"%char.

Definition is_empty (s : string) : bool :=
  match s with EmptyString => true | String _ _ => false end.

Definition first_char (s : string) : option ascii :=
  match s with EmptyString => None | String c _ => Some c end.

(** [c in s] for a character [c]. *)
Fixpoint char_in (c : ascii) (s : string) : bool :=
  match s with
  | EmptyString => false
  | String d s' => Ascii.eqb c d || char_in c s'
  end.

(** [s.endswith(c)] for a one-character suffix. *)
Fixpoint endswith_char (s : string) (c : ascii) : bool :=
  match s with
  | EmptyString => false
  | String d EmptyString => Ascii.eqb d c
  | String _ s' => endswith_char s' c
  end.

(** ** The [csv] module, [excel] dialect

    [csv.writer(csvfile)] uses the default dialect: delimiter [,],
    quotechar the double quote, [doublequote] on, no escapechar, line
    terminator CR LF, [QUOTE_MINIMAL], [skipinitialspace] and [strict]
    off.  The definitions below follow [Modules/_csv.c] (CPython 3.11 and
    later, where a NUL is a character like any other) specialised to that
    dialect: the branches for an escapechar, for skipped spaces and for
    the other quoting modes are never taken and are left out. *)

Module csv.

Definition delimiter : ascii := ","%char.
Definition quotechar : ascii := DQUOTE.
Definition lineterminator : string := String CR (String LF EmptyString).

(** [join_append_data], first pass: does some character of the field force
    quoting?  Under [QUOTE_MINIMAL] these are the delimiter, the quotechar
    and the characters of the line terminator. *)
Definition special (c : ascii) : bool :=
  Ascii.eqb c delimiter || Ascii.eqb c quotechar || char_in c lineterminator.

Fixpoint want_quotes (field : string) : bool :=
  match field with
  | EmptyString => false
  | String c rest => special c || want_quotes rest
  end.

(** [join_append_data], copy pass: each quotechar is written twice. *)
Fixpoint double_quotes (field : string) : string :=
  match field with
  | EmptyString => EmptyString
  | String c rest =>
      if Ascii.eqb c quotechar
      then String quotechar (String quotechar (double_quotes rest))
      else String c (double_quotes rest)
  end.

(** [join_append(self, field, quoted)]: the text of one field. *)
Definition join_append (field : string) (quoted : bool) : string :=
  if quoted || want_quotes field
  then String quotechar (double_quotes field +:+ String quotechar EmptyString)
  else double_quotes field.

(** The loop of [csv_writerow] over the fields; [num_fields] counts the
    fields already written, a delimiter precedes every field but the
    first. *)
Fixpoint join_fields (num_fields : nat) (row : list string) : string :=
  match row with
  | [] => EmptyString
  | field :: rest =>
      (match num_fields with
       | O => EmptyString
       | S _ => String delimiter EmptyString
       end) +:+ join_append field false +:+ join_fields (S num_fields) rest
  end.

(** [writer.writerow(row)]: a record that came out empty although it has a
    field (a single empty string) is written as a quoted empty field; the
    line terminator follows. *)
Definition writerow (row : list string) : string :=
  let rec := join_fields 0 row in
  let rec :=
    if bool_decide (0 < length row) && is_empty rec
    then join_append EmptyString true
    else rec in
  rec +:+ lineterminator.

(** The text written for a sequence of rows. *)
Fixpoint writerows (rows : list (list string)) : string :=
  match rows with
  | [] => EmptyString
  | row :: rest => writerow row +:+ writerows rest
  end.

(** *** The reader

    The reader of the same dialect, against which what the writer wrote
    is read back.  [csv.field_size_limit] is a setting of the reader and
    not of the dialect; no limit is set here. *)

Inductive ParserState :=
  | START_RECORD
  | START_FIELD
  | IN_FIELD
  | IN_QUOTED_FIELD
  | QUOTE_IN_QUOTED_FIELD
  | EAT_CRNL.

#[global] Instance ParserState_eq_dec : EqDecision ParserState.
Proof. solve_decision. Defined.

Record ReaderObj := mkReader {
  state : ParserState;
  field : string;
  fields : list string;
}.

(** What [parse_process_char] is fed: a character of the current line, or
    the end-of-line mark that follows the last character of every line. *)
Inductive Input :=
  | Ch (c : ascii)
  | EOL.

Definition parse_reset : ReaderObj :=
  {| state := START_RECORD; field := EmptyString; fields := [] |}.

Definition set_state (self : ReaderObj) (st : ParserState) : ReaderObj :=
  {| state := st; field := field self; fields := fields self |}.

Definition parse_save_field (self : ReaderObj) : ReaderObj :=
  {| state := state self; field := EmptyString;
     fields := fields self ++ [field self] |}.

Definition parse_add_char (self : ReaderObj) (c : ascii) : ReaderObj :=
  {| state := state self; field := field self +:+ String c EmptyString;
     fields := fields self |}.

Definition is_newline (c : ascii) : bool := Ascii.eqb c LF || Ascii.eqb c CR.

(** The [START_FIELD] case, which [START_RECORD] falls through to. *)
Definition start_field (self : ReaderObj) (c : Input) : ReaderObj :=
  match c with
  | EOL => set_state (parse_save_field self) START_RECORD
  | Ch ch =>
      if is_newline ch then set_state (parse_save_field self) EAT_CRNL
      else if Ascii.eqb ch quotechar then set_state self IN_QUOTED_FIELD
      else if Ascii.eqb ch delimiter then parse_save_field self
      else set_state (parse_add_char self ch) IN_FIELD
  end.

(** [parse_process_char]; [None] is the [csv.Error] raised for a new-line
    character seen outside a quoted field. *)
Definition parse_process_char (self : ReaderObj) (c : Input)
    : option ReaderObj :=
  match state self with
  | START_RECORD =>
      match c with
      | EOL => Some self
      | Ch ch =>
          if is_newline ch then Some (set_state self EAT_CRNL)
          else Some (start_field (set_state self START_FIELD) c)
      end
  | START_FIELD => Some (start_field self c)
  | IN_FIELD =>
      match c with
      | EOL => Some (set_state (parse_save_field self) START_RECORD)
      | Ch ch =>
          if is_newline ch then Some (set_state (parse_save_field self) EAT_CRNL)
          else if Ascii.eqb ch delimiter
          then Some (set_state (parse_save_field self) START_FIELD)
          else Some (parse_add_char self ch)
      end
  | IN_QUOTED_FIELD =>
      match c with
      | EOL => Some self
      | Ch ch =>
          if Ascii.eqb ch quotechar
          then Some (set_state self QUOTE_IN_QUOTED_FIELD)
          else Some (parse_add_char self ch)
      end
  | QUOTE_IN_QUOTED_FIELD =>
      match c with
      | EOL => Some (set_state (parse_save_field self) START_RECORD)
      | Ch ch =>
          if Ascii.eqb ch quotechar
          then Some (set_state (parse_add_char self ch) IN_QUOTED_FIELD)
          else if Ascii.eqb ch delimiter
          then Some (set_state (parse_save_field self) START_FIELD)
          else if is_newline ch
          then Some (set_state (parse_save_field self) EAT_CRNL)
          else Some (set_state (parse_add_char self ch) IN_FIELD)
      end
  | EAT_CRNL =>
      match c with
      | EOL => Some (set_state self START_RECORD)
      | Ch ch => if is_newline ch then Some self else None
      end
  end.

(** The inputs the reader receives from a file opened with [newline='']:
    lines end at LF, at CR LF, or at a CR that no LF follows, the line
    ending is kept, and an end-of-line mark follows each line (also a last
    line that has no ending). *)
Fixpoint file_inputs (text : string) : list Input :=
  match text with
  | EmptyString => []
  | String c rest =>
      if Ascii.eqb c LF then Ch c :: EOL :: file_inputs rest
      else if Ascii.eqb c CR then
        match rest with
        | String d _ =>
            if Ascii.eqb d LF then Ch c :: file_inputs rest
            else Ch c :: EOL :: file_inputs rest
        | EmptyString => Ch c :: EOL :: file_inputs rest
        end
      else
        match rest with
        | String _ _ => Ch c :: file_inputs rest
        | EmptyString => Ch c :: EOL :: file_inputs rest
        end
  end.

(** [list(csv.reader(f))]: [Reader_iternext] feeds lines until the parser
    is back in [START_RECORD] after a line, returns the fields and resets;
    when the input ends inside a record (a pending field, or an open
    quote) the pending field is saved and the record returned. *)
Fixpoint read_all (self : ReaderObj) (inp : list Input)
    (rows : list (list string)) : option (list (list string)) :=
  match inp with
  | [] =>
      if negb (is_empty (field self)) || bool_decide (state self = IN_QUOTED_FIELD)
      then Some (rows ++ [fields (parse_save_field self)])
      else Some rows
  | c :: rest =>
      match parse_process_char self c with
      | None => None
      | Some self' =>
          match c, state self' with
          | EOL, START_RECORD => read_all parse_reset rest (rows ++ [fields self'])
          | _, _ => read_all self' rest rows
          end
      end
  end.

Definition parse (text : string) : option (list (list string)) :=
  read_all parse_reset (file_inputs text) [].

End csv.

(** ** Exceptions, results and the world *)

(** The exceptions the module and the libraries it calls raise. *)
Inductive Exn :=
  | KeyError (key : string)
  | TypeError (msg : string)
  | ValueError (msg : string)
  | FileNotFoundError (path : string)
  | FileExistsError (path : string)
  | IsADirectoryError (path : string)
  | NotADirectoryError (path : string)
  | PermissionError (path : string)
  | OSError (msg : string)
  | NoCredentialsError
  | ClientError (msg : string)
  | ConnectionError
  | KeyboardInterrupt.

(** [isinstance(e, Exception)]: of the exceptions above only
    [KeyboardInterrupt] derives from [BaseException] directly. *)
Definition isinstance_Exception (e : Exn) : bool :=
  match e with KeyboardInterrupt => false | _ => true end.

Definition isinstance_NoCredentialsError (e : Exn) : bool :=
  match e with NoCredentialsError => true | _ => false end.

(** [str(e)]: the message of the exception, as the S3 backend prints it
    after its fixed prefix. *)
Definition Exn_str (e : Exn) : string :=
  match e with
  | KeyError k => "'" +:+ k +:+ "'"
  | TypeError m | ValueError m => m
  | FileNotFoundError p => "[Errno 2] No such file or directory: '" +:+ p +:+ "'"
  | FileExistsError p => "[Errno 17] File exists: '" +:+ p +:+ "'"
  | IsADirectoryError p => "[Errno 21] Is a directory: '" +:+ p +:+ "'"
  | NotADirectoryError p => "[Errno 20] Not a directory: '" +:+ p +:+ "'"
  | PermissionError p => "[Errno 13] Permission denied: '" +:+ p +:+ "'"
  | OSError m => m
  | NoCredentialsError => "Unable to locate credentials"
  | ClientError m => m
  | ConnectionError => "Connection error"
  | KeyboardInterrupt => EmptyString
  end.

Inductive Result (A : Type) :=
  | Return (a : A)
  | Raise (e : Exn).
Arguments Return {A} a.
Arguments Raise {A} e.

#[global] Instance Exn_eq_dec : EqDecision Exn.
Proof. solve_decision. Defined.

(** A node of the local file system. *)
Inductive Node :=
  | File (content : string)
  | Dir.

#[global] Instance Node_eq_dec : EqDecision Node.
Proof. solve_decision. Defined.

(** A request to the operating system that it may refuse for a reason the
    [disk] below does not show: making a directory, opening a file for
    writing, writing a text to an open file, closing it. *)
Inductive OsRequest :=
  | Mkdir (path : string)
  | OpenW (path : string)
  | Write (path : string) (text : string)
  | Close (path : string).

(** A refusal: the exception raised and, when a write or the close is
    refused, how many characters of the text written since the file was
    opened are in the file afterwards (the rest was still buffered). *)
Record OsFault := mkOsFault {
  fault_exn : Exn;
  kept : nat;
}.

(** The module-level callables of [tools.py]. *)
Inductive Callable :=
  | get_retrieval_tool_fn
  | create_csv_fn
  | upload_file_to_wasabi_fn
  | upload_file_to_s3_fn
  | get_all_files_in_data_folder_fn
  | CreateCSV_cls
  | UploadCSV_cls
  | GetFilesInDataFolder_cls
  | get_connery_actions_fn.

#[global] Instance Callable_eq_dec : EqDecision Callable.
Proof. solve_decision. Defined.

(** The tool objects the agent can be given: instances of the three tool
    classes, and the actions of a Connery runner. *)
Inductive Tool :=
  | CreateCSV_tool
  | UploadCSV_tool
  | GetFilesInDataFolder_tool
  | ConneryAction (action_id : string).

(** [boto3.client('s3', ...)] and one [upload_file] request. *)
Record S3Client := mkS3Client {
  endpoint_url : option string;
  aws_access_key_id : string;
  aws_secret_access_key : string;
  region_name : string;
}.

Record UploadRequest := mkUploadRequest {
  req_client : S3Client;
  Filename : string;
  Bucket : string;
  Key : string;
  ACL : string;
}.

Record S3Object := mkS3Object {
  Body : string;
  ObjectACL : string;
}.

(** Everything the module reads or changes outside its own values.
    [os_fault] stands for the operating system: which requests it refuses
    for a reason [disk] does not show (no permission, a read-only or full
    file system, a quota, a name that is too long, a text the encoding
    cannot express), and for a path that is not canonical, where [disk]
    shows nothing, every reason.
    [s3_fault], [connery_list_actions] and [connery_run_action] stand for
    the remote services: whether a given upload request is refused (and
    how), which actions the Connery runner lists for a URL and key, and
    what running an action on an input gives.  [buckets] maps (endpoint,
    bucket, key) to the stored object.  [connery_cache] is the cache of
    the [lru_cache(maxsize=1)] around [_get_connery_actions].  [calls] is
    a log of the callables of this module entered so far; no code reads
    it. *)
Record World := mkWorld {
  environ : gmap string string;
  disk : gmap string Node;
  os_fault : OsRequest → option OsFault;
  stdout : list string;
  s3_fault : UploadRequest → option Exn;
  buckets : gmap (string * string * string) S3Object;
  connery_list_actions : string → string → Result (list string);
  connery_run_action : string → string → Result string;
  connery_cache : option (list Tool);
  calls : list Callable;
}.

Definition set_disk (d : gmap string Node) (w : World) : World :=
  mkWorld (environ w) d (os_fault w) (stdout w) (s3_fault w) (buckets w)
          (connery_list_actions w) (connery_run_action w) (connery_cache w) (calls w).
Definition set_stdout (o : list string) (w : World) : World :=
  mkWorld (environ w) (disk w) (os_fault w) o (s3_fault w) (buckets w)
          (connery_list_actions w) (connery_run_action w) (connery_cache w) (calls w).
Definition set_buckets (b : gmap (string * string * string) S3Object)
    (w : World) : World :=
  mkWorld (environ w) (disk w) (os_fault w) (stdout w) (s3_fault w) b
          (connery_list_actions w) (connery_run_action w) (connery_cache w) (calls w).
Definition set_connery_cache (c : option (list Tool)) (w : World) : World :=
  mkWorld (environ w) (disk w) (os_fault w) (stdout w) (s3_fault w) (buckets w)
          (connery_list_actions w) (connery_run_action w) c (calls w).
Definition set_calls (c : list Callable) (w : World) : World :=
  mkWorld (environ w) (disk w) (os_fault w) (stdout w) (s3_fault w) (buckets w)
          (connery_list_actions w) (connery_run_action w) (connery_cache w) c.
Definition set_environ (e : gmap string string) (w : World) : World :=
  mkWorld e (disk w) (os_fault w) (stdout w) (s3_fault w) (buckets w)
          (connery_list_actions w) (connery_run_action w) (connery_cache w) (calls w).

(** ** Computations: state and exceptions *)

Definition M (A : Type) : Type := World → Result A * World.

#[global] Instance M_ret : MRet M := λ A a w, (Return a, w).
#[global] Instance M_bind : MBind M := λ A B f m w,
  match m w with
  | (Return a, w') => f a w'
  | (Raise e, w') => (Raise e, w')
  end.

Definition raise {A} (e : Exn) : M A := λ w, (Raise e, w).

(** [try: body / except <class>: handler]. *)
Definition try_except {A} (body : M A) (catches : Exn → bool)
    (handler : Exn → M A) : M A := λ w,
  match body w with
  | (Return a, w') => (Return a, w')
  | (Raise e, w') => if catches e then handler e w' else (Raise e, w')
  end.

(** [for x in l: body(x)]. *)
Fixpoint for_each {A} (l : list A) (body : A → M unit) : M unit :=
  match l with
  | [] => mret tt
  | x :: rest => body x ;; for_each rest body
  end.

Definition enter (f : Callable) : M unit := λ w,
  (Return tt, set_calls (calls w ++ [f]) w).

Definition print (line : string) : M unit := λ w,
  (Return tt, set_stdout (stdout w ++ [line]) w).

(** ** [str] methods and [os.path] (POSIX) *)

(** [s.rfind(c)]: the index of the last occurrence of [c], or -1.  [i] is
    the index of the first character of [s], [found] the answer so far. *)
Fixpoint rfind_from (s : string) (c : ascii) (i : Z) (found : Z) : Z :=
  match s with
  | EmptyString => found
  | String d rest =>
      rfind_from rest c (i + 1) (if Ascii.eqb d c then i else found)
  end.
Definition rfind (s : string) (c : ascii) : Z := rfind_from s c 0 (-1).

(** The slices [s[n:]] and [s[:n]] for [0 <= n]. *)
Fixpoint slice_from (n : nat) (s : string) : string :=
  match n, s with
  | O, _ => s
  | S n', String _ rest => slice_from n' rest
  | S _, EmptyString => EmptyString
  end.
Fixpoint slice_to (n : nat) (s : string) : string :=
  match n, s with
  | O, _ => EmptyString
  | S n', String c rest => String c (slice_to n' rest)
  | S _, EmptyString => EmptyString
  end.

(** [s.split(sep)] for a one-character separator; [cur] is the piece being
    read.  The result is never empty. *)
Fixpoint split_from (cur : string) (s : string) (sep : ascii) : list string :=
  match s with
  | EmptyString => [cur]
  | String c rest =>
      if Ascii.eqb c sep then cur :: split_from EmptyString rest sep
      else split_from (cur +:+ String c EmptyString) rest sep
  end.
Definition str_split (s : string) (sep : ascii) : list string :=
  split_from EmptyString s sep.

(** [l[-1]] on the result of a split. *)
Definition last_item (l : list string) : string := default EmptyString (last l).

(** [s.rstrip(c)]. *)
Fixpoint rstrip (s : string) (c : ascii) : string :=
  match s with
  | EmptyString => EmptyString
  | String d rest =>
      match rstrip rest c with
      | EmptyString => if Ascii.eqb d c then EmptyString else String d EmptyString
      | r => String d r
      end
  end.

(** [posixpath.join(a, b)]. *)
Definition os_path_join (a b : string) : string :=
  if bool_decide (first_char b = Some SLASH) then b
  else if is_empty a || endswith_char a SLASH then a +:+ b
  else a +:+ String SLASH EmptyString +:+ b.

(** [posixpath.basename(p)]: [p[p.rfind('/') + 1:]]. *)
Definition os_path_basename (p : string) : string :=
  slice_from (Z.to_nat (rfind p SLASH + 1)) p.

(** [posixpath.dirname(p)]: the head up to the last slash, trailing
    slashes removed unless the head is made of slashes only. *)
Definition os_path_dirname (p : string) : string :=
  let head := slice_to (Z.to_nat (rfind p SLASH + 1)) p in
  if is_empty (rstrip head SLASH) then head else rstrip head SLASH.

(** ** [os]: environment and local disk

    The disk is read under the text of a path.  The working directory
    exists; the directories above a canonical path are the keys that are
    its prefixes, and [open] walks them. *)

(** [os.environ[key]]. *)
Definition os_environ_getitem (key : string) : M string := λ w,
  match environ w !! key with
  | Some v => (Return v, w)
  | None => (Raise (KeyError key), w)
  end.

(** [os.environ.get(key)]. *)
Definition os_environ_get (key : string) : M (option string) := λ w,
  (Return (environ w !! key), w).

(** A path component that names an entry of a directory: not empty, not
    [.] and not [..]. *)
Definition is_name (c : string) : bool :=
  negb (is_empty c) && negb (bool_decide (c = "."))
  && negb (bool_decide (c = "..")).

(** A canonical path relative to the working directory: [c1/c2/.../cn],
    every component a name. *)
Definition canonical (path : string) : bool :=
  forallb is_name (str_split path SLASH).

Definition child (cur c : string) : string :=
  if is_empty cur then c else cur +:+ String SLASH EmptyString +:+ c.

(** The walk down the directories of a path [c1/.../cn] from [cur]: every
    component but the last is looked up and has to be a directory. *)
Fixpoint lookup_dirs (d : gmap string Node) (cur : string)
    (comps : list string) : option (string → Exn) :=
  match comps with
  | [] => None
  | c :: rest =>
      match rest with
      | [] => None
      | _ :: _ =>
          match d !! child cur c with
          | Some Dir => lookup_dirs d (child cur c) rest
          | Some (File _) => Some NotADirectoryError
          | None => Some FileNotFoundError
          end
      end
  end.

(** [os.makedirs(name, exist_ok=True)] for a name of one component. *)
Definition os_makedirs (name : string) : M unit := λ w,
  match disk w !! name with
  | None =>
      match os_fault w (Mkdir name) with
      | Some f => (Raise (fault_exn f), w)
      | None => (Return tt, set_disk (<[name := Dir]> (disk w)) w)
      end
  | Some Dir => (Return tt, w)
  | Some (File _) => (Raise (FileExistsError name), w)
  end.

(** [open(path, 'w', newline='')]: the file is created or truncated; the
    handle is its path.  Python refuses a NUL in the path; then the
    system may refuse.  Where the directories of the path are names they
    are walked: one that is missing or a regular file ends the call (for
    a path that ends with a slash the walk ends one component earlier,
    as [open] with [O_CREAT] does).  A path whose last component is not a
    name, or that is a directory, cannot be opened for writing.  A path
    in another spelling is opened as the system decides, under its
    text. *)
Definition open_w (path : string) : M string := λ w,
  if is_empty path then (Raise (FileNotFoundError path), w)
  else if char_in NUL path then (Raise (ValueError "embedded null byte"), w)
  else match os_fault w (OpenW path) with
  | Some f => (Raise (fault_exn f), w)
  | None =>
      let comps := str_split path SLASH in
      let walked :=
        if is_empty (last_item comps) then removelast comps else comps in
      match (if forallb is_name (removelast comps)
             then lookup_dirs (disk w) EmptyString walked else None) with
      | Some e => (Raise (e path), w)
      | None =>
          if negb (is_name (last_item comps))
             || bool_decide (disk w !! path = Some Dir)
          then (Raise (IsADirectoryError path), w)
          else (Return path, set_disk (<[path := File EmptyString]> (disk w)) w)
      end
  end.

(** [f.write(text)] on a handle of [open_w]; [newline=''] writes the text
    untranslated.  When the write is refused, what is left in the file is
    a prefix of what was written to it. *)
Definition file_write (handle : string) (text : string) : M unit := λ w,
  match disk w !! handle with
  | Some (File content) =>
      match os_fault w (Write handle text) with
      | Some f =>
          (Raise (fault_exn f),
           set_disk (<[handle := File (slice_to (kept f) (content +:+ text))]>
                       (disk w)) w)
      | None =>
          (Return tt,
           set_disk (<[handle := File (content +:+ text)]> (disk w)) w)
      end
  | _ => (Raise (ValueError "I/O operation on closed file"), w)
  end.

(** [f.close()], which flushes what is still buffered. *)
Definition file_close (handle : string) : M unit := λ w,
  match os_fault w (Close handle) with
  | Some f =>
      (Raise (fault_exn f),
       match disk w !! handle with
       | Some (File content) =>
           set_disk (<[handle := File (slice_to (kept f) content)]> (disk w)) w
       | _ => w
       end)
  | None => (Return tt, w)
  end.

(** [with open(path, 'w', newline='') as f: body]: the file is closed
    when the body is left, also when it is left by an exception; an
    exception of the close replaces that of the body. *)
Definition with_open_w {A} (path : string) (body : string → M A) : M A :=
  f ← open_w path;
  (λ w, match body f w with
        | (Return a, w') => (file_close f ;; mret a) w'
        | (Raise e, w') => (file_close f ;; raise e) w'
        end) : M A.

(** [os.listdir(path)]: the names of the entries of the directory, in the
    order the file system keeps them. *)
Definition dir_entries (d : gmap string Node) (path : string) : list string :=
  omap (λ kv : string * Node,
          if bool_decide (os_path_dirname kv.1 = path ∧ kv.1 ≠ path
                          ∧ os_path_basename kv.1 ≠ EmptyString)
          then Some (os_path_basename kv.1) else None)
       (map_to_list d).

Definition os_listdir (path : string) : M (list string) := λ w,
  match disk w !! path with
  | Some Dir => (Return (dir_entries (disk w) path), w)
  | Some (File _) => (Raise (NotADirectoryError path), w)
  | None => (Raise (FileNotFoundError path), w)
  end.

(** ** [boto3] *)

Definition boto3_client (endpoint : option string)
    (access_key secret_key region : string) : S3Client :=
  mkS3Client endpoint access_key secret_key region.

(** The endpoint a client talks to: the one given, else the regional
    endpoint of Amazon S3. *)
Definition endpoint_of (c : S3Client) : string :=
  default ("https://s3." +:+ region_name c +:+ ".amazonaws.com") (endpoint_url c).

(** [s3_client.upload_file(Filename, Bucket, Key, ExtraArgs={'ACL': acl})]:
    the transfer first takes the size of the local file, so a file that
    does not exist raises [FileNotFoundError] before any request is sent;
    the request may then fail (no credentials, a refusal by the service,
    the network), as [s3_fault] tells; otherwise the object is stored
    under the key, with the content of the file and the given ACL. *)
Definition upload_file (c : S3Client) (filename bucket key acl : string)
    : M unit := λ w,
  match disk w !! filename with
  | Some (File content) =>
      match s3_fault w (mkUploadRequest c filename bucket key acl) with
      | Some e => (Raise e, w)
      | None =>
          (Return tt,
           set_buckets (<[(endpoint_of c, bucket, key) := mkS3Object content acl]>
                          (buckets w)) w)
      end
  | Some Dir => (Raise (IsADirectoryError filename), w)
  | None => (Raise (FileNotFoundError filename), w)
  end.

(** ** The functions of [tools.py] *)

(** [create_csv(header, data, file_name)]. *)
Definition create_csv (header : list string) (data : list (list string))
    (file_name : string) : M string :=
  enter create_csv_fn ;;
  let folder_path := "data" in
  let csv_file := os_path_join folder_path file_name in
  let csv_output := csv_file +:+ ".csv" in
  os_makedirs folder_path ;;
  with_open_w csv_file (λ csvfile,
    file_write csvfile (csv.writerow header) ;;
    for_each data (λ row, file_write csvfile (csv.writerow row))) ;;
  mret csv_file.

(** [upload_file_to_wasabi(file_name)]; [None] is Python's [None]. *)
Definition upload_file_to_wasabi (file_name : string) : M (option string) :=
  enter upload_file_to_wasabi_fn ;;
  let wasabi_region := "ap-southeast-1" in
  let bucket_name := "tesa-medication-schedules" in
  let object_name : option string := None in
  let object_name :=
    match object_name with
    | None => last_item (str_split file_name SLASH)
    | Some o => o
    end in
  access_key ← os_environ_getitem "WASABI_ACCESS_KEY";
  secret_key ← os_environ_getitem "WASABI_SECRET_KEY";
  let s3_client :=
    boto3_client (Some ("https://s3." +:+ wasabi_region +:+ ".wasabisys.com"))
                 access_key secret_key wasabi_region in
  let file_path := os_path_join "data" file_name in
  try_except
    (upload_file s3_client file_path bucket_name object_name "public-read" ;;
     let url := "https://" +:+ bucket_name +:+ ".s3." +:+ wasabi_region
                +:+ ".wasabisys.com/" +:+ object_name in
     mret (Some url))
    isinstance_NoCredentialsError
    (λ _, print "Credentials not available" ;; mret None).

(** [upload_file_to_s3(file_name)]. *)
Definition upload_file_to_s3 (file_name : string) : M (option string) :=
  enter upload_file_to_s3_fn ;;
  let s3_region := "ap-southeast-1" in
  let bucket_name := "tesa-medication-schedules" in
  let object_name : option string := None in
  let object_name :=
    match object_name with
    | None => os_path_basename file_name
    | Some o => o
    end in
  access_key ← os_environ_getitem "AWS_ACCESS_KEY_ID";
  secret_key ← os_environ_getitem "AWS_SECRET_ACCESS_KEY";
  let s3_client := boto3_client None access_key secret_key s3_region in
  let file_path := os_path_join "data" file_name in
  try_except
    (upload_file s3_client file_path bucket_name object_name "public-read" ;;
     let url := "https://" +:+ bucket_name +:+ ".s3." +:+ s3_region
                +:+ ".amazonaws.com/" +:+ object_name in
     mret (Some url))
    isinstance_Exception
    (λ e, print ("Error uploading file to S3: " +:+ Exn_str e) ;; mret None).

(** [get_all_files_in_data_folder(folder_path="data")]. *)
Definition get_all_files_in_data_folder (folder_path : string)
    : M (list string) :=
  enter get_all_files_in_data_folder_fn ;;
  files ← os_listdir folder_path;
  mret files.

(** ** The tool classes

    [self] carries no state and [run_manager] is not used by any method;
    both are left out.  [_arun] is the body of the [async def], run when
    the coroutine is awaited. *)

Module CreateCSV.
Definition name : string := "create_csv".
Definition description : string :=
    "Create a CSV file with the given header and data.".
Definition _run (header : list string) (data : list (list string))
      (file_name : string) : M string :=
    create_csv header data file_name.
Definition _arun (header : list string) (data : list (list string))
      (file_name : string) : M string :=
    create_csv header data file_name.
End CreateCSV.

Module UploadCSV.
Definition name : string := "upload_csv".
Definition description : string :=
    "Upload a CSV file to Wasabi Hot Cloud Storage.".
Definition _run (file_name : string) : M (option string) :=
    upload_file_to_s3 file_name.
Definition _arun (file_name : string) : M (option string) :=
    upload_file_to_s3 file_name.
End UploadCSV.

Module GetFilesInDataFolder.
Definition name : string := "get_files_medication_schedules_in_data_folder".
Definition description : string :=
    "Get all files / generated medication schedules in the data folder.".
Definition _run (folder_path : string) : M (list string) :=
    get_all_files_in_data_folder "data".
Definition _arun (folder_path : string) : M (list string) :=
    get_all_files_in_data_folder "data".
End GetFilesInDataFolder.

(** ** The Connery factory *)

(** Modelled from the spec: [ConneryService] and [ConneryToolkit] are
    classes of [langchain_community], not of this repository.  The spec
    (4.1): construction needs a service URL and an API key from the
    environment; if either is absent, or the remote service rejects them,
    construction fails and the failure reaches the caller.

    [ConneryService(runner_url=..., api_key=...)]: a value that is missing
    or empty is refused. *)
Definition ConneryService (runner_url api_key : option string)
    : M (string * string) :=
  match runner_url, api_key with
  | Some url, Some key =>
      if is_empty url || is_empty key
      then raise (ValueError "Did not find runner_url or api_key")
      else mret (url, key)
  | _, _ => raise (ValueError "Did not find runner_url or api_key")
  end.

(** Modelled from the spec:
    [ConneryToolkit.create_instance(service).get_tools()] asks the runner
    for its actions; what the runner answers is [connery_list_actions]. *)
Definition ConneryToolkit_get_tools (service : string * string)
    : M (list Tool) := λ w,
  match connery_list_actions w service.1 service.2 with
  | Return ids => (Return (ConneryAction <$> ids), w)
  | Raise e => (Raise e, w)
  end.

(** The cache of [lru_cache(maxsize=1)] around a function without
    arguments: at most one result. *)
Definition cache_get : M (option (list Tool)) := λ w,
  (Return (connery_cache w), w).
Definition cache_put (tools : list Tool) : M unit := λ w,
  (Return tt, set_connery_cache (Some tools) w).

(** [_get_connery_actions()], under [lru_cache(maxsize=1)]: a cached
    result is returned as it is; a result is cached when the body
    returns, and nothing is cached when it raises. *)
Definition _get_connery_actions : M (list Tool) :=
  enter get_connery_actions_fn ;;
  cached ← cache_get;
  match cached with
  | Some tools => mret tools
  | None =>
      runner_url ← os_environ_get "CONNERY_RUNNER_URL";
      api_key ← os_environ_get "CONNERY_RUNNER_API_KEY";
      connery_service ← ConneryService runner_url api_key;
      tools ← ConneryToolkit_get_tools connery_service;
      cache_put tools ;;
      mret tools
  end.

(** ** The enumeration and the registry *)

Inductive AvailableTools :=
  | CONNERY
  | RETRIEVAL
  | CREATE_CSV
  | UPLOAD_CSV
  | GET_ALL_FILES.

#[global] Instance AvailableTools_eq_dec : EqDecision AvailableTools.
Proof. solve_decision. Defined.

(** The members in definition order, as iterating the class gives them. *)
Definition members : list AvailableTools :=
  [CONNERY; RETRIEVAL; CREATE_CSV; UPLOAD_CSV; GET_ALL_FILES].

(** [e.value]. *)
Definition value (e : AvailableTools) : string :=
  match e with
  | CONNERY =>
      String DQUOTE ("AI Action Runner" +:+ String DQUOTE " by Connery")
  | RETRIEVAL => "Retrieval"
  | CREATE_CSV => "Create CSV"
  | UPLOAD_CSV => "Upload CSV"
  | GET_ALL_FILES => "Get all files in data folder"
  end.

(** The dict literal [TOOLS], in insertion order. *)
Definition TOOLS : list (AvailableTools * Callable) :=
  [ (CONNERY, get_connery_actions_fn);
    (CREATE_CSV, CreateCSV_cls);
    (UPLOAD_CSV, UploadCSV_cls);
    (GET_ALL_FILES, get_all_files_in_data_folder_fn) ].

(** [TOOL_OPTIONS = {e.value: e.value for e in AvailableTools}]. *)
Definition TOOL_OPTIONS : gmap string string :=
  list_to_map ((λ e, (value e, value e)) <$> members).

(** The factories registered under a member. *)
Definition factories_of (tools : list (AvailableTools * Callable))
    (k : AvailableTools) : list Callable :=
  snd <$> filter (λ kv, kv.1 = k) tools.

(** [TOOLS[identifier]].  [AvailableTools] derives from [str]: a member
    hashes and compares as its value, so the dict is indexed by the
    identifier's text; a miss raises [KeyError]. *)
Definition TOOLS_getitem (identifier : string) : M Callable :=
  match list_find (λ kv, value kv.1 = identifier) TOOLS with
  | Some (_, (_, v)) => mret v
  | None => raise (KeyError identifier)
  end.

(** What calling and running return. *)
Inductive PyObj :=
  | PyNone
  | PyStr (s : string)
  | PyStrList (l : list string)
  | PyTool (t : Tool)
  | PyToolList (l : list Tool).

(** [v()]: a callable called with no argument. *)
Definition call (v : Callable) : M PyObj :=
  match v with
  | get_connery_actions_fn =>
      tools ← _get_connery_actions; mret (PyToolList tools)
  | CreateCSV_cls => enter CreateCSV_cls ;; mret (PyTool CreateCSV_tool)
  | UploadCSV_cls => enter UploadCSV_cls ;; mret (PyTool UploadCSV_tool)
  | GetFilesInDataFolder_cls =>
      enter GetFilesInDataFolder_cls ;; mret (PyTool GetFilesInDataFolder_tool)
  | get_all_files_in_data_folder_fn =>
      files ← get_all_files_in_data_folder "data"; mret (PyStrList files)
  | get_retrieval_tool_fn =>
      raise (TypeError "get_retrieval_tool() missing 2 required positional arguments")
  | create_csv_fn =>
      raise (TypeError "create_csv() missing 3 required positional arguments")
  | upload_file_to_wasabi_fn =>
      raise (TypeError "upload_file_to_wasabi() missing 1 required positional argument")
  | upload_file_to_s3_fn =>
      raise (TypeError "upload_file_to_s3() missing 1 required positional argument")
  end.

(** The loop at the end of the module, over a registry [tools]:
    [for k, v in tools.items(): if k != AvailableTools.CONNERY: v()]. *)
Definition check_tools (tools : list (AvailableTools * Callable)) : M unit :=
  for_each tools (λ kv,
    if bool_decide (kv.1 ≠ CONNERY) then call kv.2 ;; mret tt else mret tt).

(** Importing the module runs the loop over [TOOLS]. *)
Definition module_startup : M unit := check_tools TOOLS.

(** ** Running a tool *)

Inductive ToolInput :=
  | CSVInput (header : list string) (data : list (list string)) (file_name : string)
  | UploadCSVInput (file_name : string)
  | GetAllFilesInput (folder_path : string)
  | ActionInput (text : string).

Definition of_url (r : option string) : PyObj :=
  match r with Some url => PyStr url | None => PyNone end.

(** [tool.run(input)] / [await tool.arun(input)]: the input is checked
    against the tool's [args_schema], then [_run] / [_arun] is called; a
    Connery action is run by the remote runner. *)
Definition tool_run (asynchronous : bool) (t : Tool) (input : ToolInput)
    : M PyObj :=
  match t, input with
  | CreateCSV_tool, CSVInput header data file_name =>
      path ← (if asynchronous then CreateCSV._arun header data file_name
              else CreateCSV._run header data file_name);
      mret (PyStr path)
  | UploadCSV_tool, UploadCSVInput file_name =>
      url ← (if asynchronous then UploadCSV._arun file_name
             else UploadCSV._run file_name);
      mret (of_url url)
  | GetFilesInDataFolder_tool, GetAllFilesInput folder_path =>
      files ← (if asynchronous then GetFilesInDataFolder._arun folder_path
               else GetFilesInDataFolder._run folder_path);
      mret (PyStrList files)
  | ConneryAction action_id, ActionInput text =>
      λ w, match connery_run_action w action_id text with
           | Return out => (Return (PyStr out), w)
           | Raise e => (Raise e, w)
           end
  | _, _ => raise (ValueError "validation error for the tool input")
  end.

(** The tools a value returned by a factory holds. *)
Definition tools_of (o : PyObj) : list Tool :=
  match o with
  | PyTool t => [t]
  | PyToolList l => l
  | _ => []
  end.

(** ** The retrieval tool factory

    The factory touches nothing of the [World]; its state is the cache of
    [lru_cache] and the allocator that gives every new object its
    identity. *)

(** [RedisFilter.tag(t) == v]. *)
Record TagFilter := mkTagFilter {
  tag : string;
  equals : string;
}.

(** [vstore.as_retriever(search_kwargs={"filter": f})]: a retriever over
    the shared vector store, configured by its filter only. *)
Record Retriever := mkRetriever {
  search_filter : TagFilter;
}.

(** The tool [create_retriever_tool] builds; [address] is the identity of
    the object ([id(tool)]). *)
Record RetrieverTool := mkRetrieverTool {
  address : nat;
  tool_name : string;
  tool_description : string;
  retriever : Retriever;
}.

#[global] Instance TagFilter_eq_dec : EqDecision TagFilter.
Proof. solve_decision. Defined.
#[global] Instance Retriever_eq_dec : EqDecision Retriever.
Proof. solve_decision. Defined.
#[global] Instance RetrieverTool_eq_dec : EqDecision RetrieverTool.
Proof. solve_decision. Defined.

Definition get_retriever (assistant_id : string) : Retriever :=
  mkRetriever (mkTagFilter "namespace" assistant_id).

(** [create_retriever_tool(retriever, name, description)]: a new object at
    the next free address [heap]. *)
Definition create_retriever_tool (r : Retriever) (name description : string)
    (heap : nat) : RetrieverTool * nat :=
  (mkRetrieverTool heap name description r, S heap).

Record Memo (K V : Type) := mkMemo {
  entries : list (K * V);
  next_address : nat;
}.
Arguments mkMemo {K V} _ _.
Arguments entries {K V} _.
Arguments next_address {K V} _.

Section lru_cache.
Context {K V : Type} `{EqDecision K}.

(** [@lru_cache(maxsize=n)] for [0 < n], calls with positional arguments:
    the key is the tuple of arguments.  [entries] holds the cached results,
    the most recently used first. *)
Variable maxsize : nat.
Variable user_function : K → nat → V * nat.

Definition cache_lookup (key : K) (cache : list (K * V)) : option V :=
  match list_find (λ kv, kv.1 = key) cache with
  | Some (_, (_, result)) => Some result
  | None => None
  end.

Definition cache_remove (key : K) (cache : list (K * V)) : list (K * V) :=
  filter (λ kv, kv.1 ≠ key) cache.

(** One call of the wrapper: a hit moves the entry to the front; a miss
    calls the function and stores the result in front, in place of the
    least recently used entry when the cache is full. *)
Definition lru_cache (key : K) (m : Memo K V) : V * Memo K V :=
  match cache_lookup key (entries m) with
  | Some result =>
      (result, mkMemo ((key, result) :: cache_remove key (entries m))
                      (next_address m))
  | None =>
      let '(result, heap) := user_function key (next_address m) in
      (result,
       mkMemo (if bool_decide (maxsize ≤ length (entries m))
               then (key, result) :: removelast (entries m)
               else (key, result) :: entries m)
              heap)
  end.

End lru_cache.

(** [get_retrieval_tool(assistant_id, description)], under
    [lru_cache(maxsize=5)]. *)
Definition get_retrieval_tool (assistant_id description : string)
    : Memo (string * string) RetrieverTool
      → RetrieverTool * Memo (string * string) RetrieverTool :=
  lru_cache 5
    (λ key heap, create_retriever_tool (get_retriever key.1) "Retriever" key.2 heap)
    (assistant_id, description).

(** The state of a fresh interpreter, and the states calls can reach. *)
Definition fresh_memo : Memo (string * string) RetrieverTool := mkMemo [] 0.

Fixpoint calls_from (keys : list (string * string))
    (m : Memo (string * string) RetrieverTool)
    : list RetrieverTool * Memo (string * string) RetrieverTool :=
  match keys with
  | [] => ([], m)
  | key :: rest =>
      let '(t, m') := get_retrieval_tool key.1 key.2 m in
      let '(ts, m'') := calls_from rest m' in
      (t :: ts, m'')
  end.

(** * The vocabulary of the statements *)

(** One step of the reader on a known input. *)
Ltac reader_step :=
  cbn; unfold csv.set_state, csv.parse_add_char, csv.parse_save_field;
  cbn [csv.state csv.field csv.fields].

(** The reader after the text of one field, before what ends it: after
    the closing quote of a quoted field, inside a plain field, or still at
    the start when the field is empty and was written as nothing. *)
Inductive after_field (st : csv.ParserState) (f : string) (fs : list string)
    : csv.ReaderObj → Prop :=
  | after_quoted :
      after_field st f fs (csv.mkReader csv.QUOTE_IN_QUOTED_FIELD f fs)
  | after_plain : after_field st f fs (csv.mkReader csv.IN_FIELD f fs)
  | after_nothing :
      f = EmptyString → st = csv.START_FIELD →
      after_field st f fs (csv.mkReader csv.START_FIELD EmptyString fs)
  | after_nothing_first :
      f = EmptyString → st = csv.START_RECORD →
      after_field st f fs (csv.mkReader csv.START_RECORD EmptyString fs).

(** A file name of one component, as the module's flat data directory
    expects them: a name, with no slash and no NUL. *)
Definition plain (file_name : string) : bool :=
  is_name file_name && negb (char_in SLASH file_name)
  && negb (char_in NUL file_name).

(** The operating system refuses nothing of what writing the file at
    [path] asks of it. *)
Definition lets_write (w : World) (path : string) : Prop :=
  os_fault w (OpenW path) = None
  ∧ (∀ text, os_fault w (Write path text) = None)
  ∧ os_fault w (Close path) = None.

(** [text] is the beginning of [full]. *)
Definition is_prefix (text full : string) : Prop :=
  ∃ rest, full = text +:+ rest.

(** A world in which neither the operating system nor a remote service
    refuses anything. *)
Definition quiet_world (env : gmap string string) (d : gmap string Node)
    : World :=
  mkWorld env d (λ _, None) [] (λ _, None) ∅ (λ _ _, Return [])
          (λ _ _, Return EmptyString) None [].

(** The constants both backends fix, and the hosts of their services. *)
Definition bucket_name : string := "tesa-medication-schedules".
Definition region : string := "ap-southeast-1".
Definition s3_host : string := "s3.ap-southeast-1.amazonaws.com".
Definition wasabi_host : string := "s3.ap-southeast-1.wasabisys.com".

(** The URL shape [https://<bucket>.<service-host>/<object-key>]. *)
Definition public_url (bucket host key : string) : string :=
  "https://" +:+ bucket +:+ "." +:+ host +:+ "/" +:+ key.

(** The client each backend builds from its credentials. *)
Definition s3_client_of (access_key secret_key : string) : S3Client :=
  boto3_client None access_key secret_key region.
Definition wasabi_client_of (access_key secret_key : string) : S3Client :=
  boto3_client (Some ("https://" +:+ wasabi_host)) access_key secret_key region.

(** The exception the SDK call of a backend raises in a world, if any. *)
Definition upload_error (c : S3Client) (file_name : string) (key : string)
    (w : World) : option Exn :=
  match upload_file c (os_path_join "data" file_name) bucket_name key
                    "public-read" w with
  | (Raise e, _) => Some e
  | (Return _, _) => None
  end.

(** The text after the last slash of [s], if [s] has a slash. *)
Fixpoint after_last_slash (s : string) : option string :=
  match s with
  | EmptyString => None
  | String c rest =>
      match after_last_slash rest with
      | Some t => Some t
      | None => if Ascii.eqb c SLASH then Some rest else None
      end
  end.

(** The two backends side by side. *)
Inductive Backend :=
  | Wasabi
  | S3.

Definition upload_with (b : Backend) (file_name : string) : M (option string) :=
  match b with
  | Wasabi => upload_file_to_wasabi file_name
  | S3 => upload_file_to_s3 file_name
  end.

Definition host_of (b : Backend) : string :=
  match b with Wasabi => wasabi_host | S3 => s3_host end.

Definition access_key_var (b : Backend) : string :=
  match b with Wasabi => "WASABI_ACCESS_KEY" | S3 => "AWS_ACCESS_KEY_ID" end.

Definition secret_key_var (b : Backend) : string :=
  match b with Wasabi => "WASABI_SECRET_KEY" | S3 => "AWS_SECRET_ACCESS_KEY" end.

Definition client_of (b : Backend) (access_key secret_key : string) : S3Client :=
  match b with
  | Wasabi => wasabi_client_of access_key secret_key
  | S3 => s3_client_of access_key secret_key
  end.

(** What a run of a tool enters: the one function its class wraps. *)
Definition entered_by (t : Tool) (input : ToolInput) : list Callable :=
  match t, input with
  | CreateCSV_tool, CSVInput _ _ _ => [create_csv_fn]
  | UploadCSV_tool, UploadCSVInput _ => [upload_file_to_s3_fn]
  | GetFilesInDataFolder_tool, GetAllFilesInput _ =>
      [get_all_files_in_data_folder_fn]
  | _, _ => []
  end.

(** [x ∉ l] for a list written out, by comparing with each element. *)
Ltac not_in_list :=
  let H := fresh in
  intros H; repeat (apply elem_of_cons in H as [H|H]; [done|]);
  by apply elem_of_nil in H.

(** What calling a callable with no argument enters. *)
Definition entered_by_call (v : Callable) : list Callable :=
  match v with
  | get_all_files_in_data_folder_fn | CreateCSV_cls | UploadCSV_cls
  | GetFilesInDataFolder_cls | get_connery_actions_fn => [v]
  | _ => []
  end.

(** The entries the loop calls: all but those under [CONNERY]. *)
Definition checked (tools : list (AvailableTools * Callable))
    : list (AvailableTools * Callable) :=
  filter (λ kv, kv.1 ≠ CONNERY) tools.

(** The state of [get_retrieval_tool]. *)
Abbreviation RMemo := (Memo (string * string) RetrieverTool) (only parsing).

(** The tool the factory builds for a key at an address. *)
Definition tool_for (key : string * string) (addr : nat) : RetrieverTool :=
  mkRetrieverTool addr "Retriever" key.2 (get_retriever key.1).

(** What holds of every state the factory reaches.  [log] lists every
    tool built so far, in order of construction; it is not part of the
    state. *)
Definition memo_inv (log : list RetrieverTool) (m : RMemo) : Prop :=
  next_address m = length log
  ∧ (∀ i t, log !! i = Some t → address t = i)
  ∧ (∀ k t, (k, t) ∈ entries m → t ∈ log ∧ t = tool_for k (address t))
  ∧ NoDup (entries m).*1
  ∧ length (entries m) ≤ 5.

(** The states reached from a fresh interpreter by calls of the factory. *)
Definition reachable (m : RMemo) : Prop :=
  ∃ keys, (calls_from keys fresh_memo).2 = m.

(** [key] is cached with [t], behind entries whose keys are all in [X]. *)
Definition within (X : gset (string * string)) (key : string * string)
    (t : RetrieverTool) (m : RMemo) : Prop :=
  ∃ front back,
    entries m = front ++ (key, t) :: back ∧ ∀ x, x ∈ front.*1 → x ∈ X.

(** The keys other than [key] among [others]. *)
Definition other_keys (key : string * string) (others : list (string * string))
    : gset (string * string) :=
  list_to_set (filter (λ k, k ≠ key) others).

(** The keys used so far, the most recently used first, each once:
    [touch key recent] is the order after one more use of [key]. *)
Definition touch (key : string * string) (recent : list (string * string))
    : list (string * string) :=
  key :: filter (λ k, k ≠ key) recent.

Definition recency (keys : list (string * string)) : list (string * string) :=
  foldl (λ recent key, touch key recent) [] keys.

(** * Properties *)

(** ** [os.path] on examples *)

Example os_path_examples :
  os_path_join "data" "a.csv" = "data/a.csv"
  ∧ os_path_join "data" "/etc/passwd" = "/etc/passwd"
  ∧ os_path_basename "x/y/z.csv" = "z.csv"
  ∧ last_item (str_split "x/y/z.csv" SLASH) = "z.csv"
  ∧ os_path_dirname "data/sub//z.csv" = "data/sub"
  ∧ os_path_dirname "/z.csv" = "/"
  ∧ os_path_dirname "z.csv" = "".
Proof. vm_compute. repeat split; reflexivity. Qed.

(** ** Strings *)

Lemma string_app_cons (c : ascii) (s t : string) :
  String c s +:+ t = String c (s +:+ t).
Proof. reflexivity. Qed.

Lemma string_app_nil_l (s : string) : EmptyString +:+ s = s.
Proof. reflexivity. Qed.

Lemma string_app_nil_r (s : string) : s +:+ EmptyString = s.
Proof. induction s as [|c s IH]; [done|]. by rewrite string_app_cons, IH. Qed.

Lemma string_app_assoc (s t u : string) : (s +:+ t) +:+ u = s +:+ (t +:+ u).
Proof.
  induction s as [|c s IH]; [done|]. by rewrite !string_app_cons, IH.
Qed.

Lemma string_app_nonempty_r (s t : string) :
  t ≠ EmptyString → s +:+ t ≠ EmptyString.
Proof. destruct s; [done|]. by rewrite string_app_cons. Qed.

(** ** The CSV writer read back by the CSV reader *)

Example writerow_examples :
  csv.writerow ["a"; "b,c"; ""]
  = "a," +:+ String DQUOTE ("b,c" +:+ String DQUOTE ("," +:+ csv.lineterminator))
  ∧ csv.writerow [String DQUOTE "x"]
    = String DQUOTE (String DQUOTE (String DQUOTE
        ("x" +:+ String DQUOTE csv.lineterminator)))
  ∧ csv.writerow [""] = String DQUOTE (String DQUOTE csv.lineterminator)
  ∧ csv.writerow [] = csv.lineterminator.
Proof. by vm_compute. Qed.

Example parse_examples :
  csv.parse ("a,b" +:+ String LF ("c" +:+ String CR (String LF "d")))
  = Some [["a"; "b"]; ["c"]; ["d"]]
  ∧ csv.parse (String DQUOTE ("x" +:+ String LF ("y" +:+ String DQUOTE ",z")))
    = Some [["x" +:+ String LF "y"; "z"]]
  ∧ csv.parse (String LF (String LF "a")) = Some [[]; []; ["a"]].
Proof. by vm_compute. Qed.

Section csv_roundtrip.
Import csv.

Lemma file_inputs_plain (c : ascii) (X : string) :
  is_newline c = false → X ≠ EmptyString →
  file_inputs (String c X) = Ch c :: file_inputs X.
Proof.
  unfold is_newline. intros [H1 H2]%orb_false_iff HX.
  cbn [file_inputs]. rewrite H1, H2. by destruct X.
Qed.

Lemma file_inputs_crlf (X : string) :
  file_inputs (lineterminator +:+ X) = Ch CR :: Ch LF :: EOL :: file_inputs X.
Proof. reflexivity. Qed.

(** Inside quotes every character but the quote is kept, line endings
    included: the end-of-line mark changes nothing there. *)
Lemma read_quoted_char (c : ascii) (X acc : string) fs rows :
  Ascii.eqb c quotechar = false → X ≠ EmptyString →
  read_all (mkReader IN_QUOTED_FIELD acc fs) (file_inputs (String c X)) rows
  = read_all (mkReader IN_QUOTED_FIELD (acc +:+ String c EmptyString) fs)
             (file_inputs X) rows.
Proof.
  intros Hq HX. cbn [file_inputs].
  destruct (Ascii.eqb c LF) eqn:HLF.
  { reader_step. by rewrite Hq. }
  destruct (Ascii.eqb c CR) eqn:HCR.
  { destruct X as [|d X]; [done|].
    destruct (Ascii.eqb d LF); reader_step; by rewrite Hq. }
  destruct X as [|d X]; [done|]. reader_step. by rewrite Hq.
Qed.

Lemma read_quoted_body (f : string) : ∀ (X acc : string) fs rows,
  X ≠ EmptyString →
  read_all (mkReader IN_QUOTED_FIELD acc fs)
           (file_inputs (double_quotes f +:+ X)) rows
  = read_all (mkReader IN_QUOTED_FIELD (acc +:+ f) fs) (file_inputs X) rows.
Proof.
  induction f as [|c f IH]; intros X acc fs rows HX.
  { by rewrite string_app_nil_l, string_app_nil_r. }
  cbn [double_quotes].
  assert (double_quotes f +:+ X ≠ EmptyString) as HX'
    by by apply string_app_nonempty_r.
  replace (acc +:+ String c f) with ((acc +:+ String c EmptyString) +:+ f)
    by by rewrite string_app_assoc.
  destruct (Ascii.eqb c quotechar) eqn:Hq.
  - apply Ascii.eqb_eq in Hq as ->.
    rewrite !string_app_cons.
    rewrite file_inputs_plain by done.
    rewrite file_inputs_plain by done.
    reader_step. by rewrite IH.
  - rewrite string_app_cons, read_quoted_char by done. by rewrite IH.
Qed.

Lemma special_false (c : ascii) :
  special c = false →
  Ascii.eqb c delimiter = false ∧ Ascii.eqb c quotechar = false
  ∧ is_newline c = false.
Proof.
  unfold special, is_newline, lineterminator. cbn [char_in].
  rewrite !orb_false_iff. tauto.
Qed.

Lemma double_quotes_plain (f : string) :
  want_quotes f = false → double_quotes f = f.
Proof.
  induction f as [|c f IH]; [done|]. cbn [want_quotes double_quotes].
  intros [Hc Hf]%orb_false_iff.
  apply special_false in Hc as (_ & -> & _). by rewrite IH.
Qed.

(** Outside quotes a field without special characters is read as it is. *)
Lemma read_plain_body (f : string) : ∀ (X acc : string) fs rows,
  want_quotes f = false → X ≠ EmptyString →
  read_all (mkReader IN_FIELD acc fs) (file_inputs (f +:+ X)) rows
  = read_all (mkReader IN_FIELD (acc +:+ f) fs) (file_inputs X) rows.
Proof.
  induction f as [|c f IH]; intros X acc fs rows Hf HX.
  { by rewrite string_app_nil_l, string_app_nil_r. }
  cbn [want_quotes] in Hf. apply orb_false_iff in Hf as [Hc Hf].
  apply special_false in Hc as (Hd & Hq & Hn).
  rewrite string_app_cons, file_inputs_plain
    by (try apply string_app_nonempty_r; done).
  reader_step. rewrite Hn, Hd. reader_step.
  rewrite IH by done. by rewrite string_app_assoc.
Qed.

Lemma read_field (f : string) (q : bool) (st : ParserState) fs rows X :
  st = START_RECORD ∨ st = START_FIELD → X ≠ EmptyString →
  ∃ self,
    read_all (mkReader st EmptyString fs)
             (file_inputs (join_append f q +:+ X)) rows
    = read_all self (file_inputs X) rows
    ∧ after_field st f fs self
    ∧ (state self = START_RECORD → join_append f q = EmptyString).
Proof.
  intros Hst HX. unfold join_append.
  destruct (q || want_quotes f) eqn:Hquoted.
  - exists (mkReader QUOTE_IN_QUOTED_FIELD f fs). split_and!; [|constructor|done].
    rewrite string_app_cons, string_app_assoc, string_app_cons, string_app_nil_l.
    rewrite file_inputs_plain by (try apply string_app_nonempty_r; done).
    transitivity (read_all (mkReader IN_QUOTED_FIELD EmptyString fs)
      (file_inputs (double_quotes f +:+ String quotechar X)) rows).
    { by destruct Hst as [-> | ->]. }
    rewrite read_quoted_body by done. rewrite string_app_nil_l.
    rewrite file_inputs_plain by done. reflexivity.
  - apply orb_false_iff in Hquoted as [_ Hplain].
    rewrite double_quotes_plain by done.
    destruct f as [|c f].
    { rewrite string_app_nil_l.
      destruct Hst as [-> | ->]; eexists; (split_and!; [reflexivity| |done]);
        by constructor. }
    exists (mkReader IN_FIELD (String c f) fs). split_and!; [|constructor|done].
    cbn [want_quotes] in Hplain. apply orb_false_iff in Hplain as [Hc Hf].
    apply special_false in Hc as (Hd & Hq & Hn).
    rewrite string_app_cons, file_inputs_plain
      by (try apply string_app_nonempty_r; done).
    transitivity (read_all (mkReader IN_FIELD (String c EmptyString) fs)
      (file_inputs (f +:+ X)) rows).
    { destruct Hst as [-> | ->]; reader_step;
        rewrite ?Hn, ?Hq, ?Hd; reader_step; by rewrite ?Hn, ?Hq, ?Hd. }
    by rewrite read_plain_body.
Qed.

(** A delimiter after a field saves it. *)
Lemma read_delimiter st f fs self rows X :
  after_field st f fs self → X ≠ EmptyString →
  read_all self (file_inputs (String delimiter X)) rows
  = read_all (mkReader START_FIELD EmptyString (fs ++ [f])) (file_inputs X) rows.
Proof.
  intros Hself HX. rewrite file_inputs_plain by done.
  by destruct Hself; subst.
Qed.

(** The line terminator after a field saves it and ends the record. *)
Lemma read_lineterminator st f fs self rows X :
  after_field st f fs self → state self ≠ START_RECORD →
  read_all self (file_inputs (lineterminator +:+ X)) rows
  = read_all parse_reset (file_inputs X) (rows ++ [fs ++ [f]]).
Proof.
  intros Hself Hst. rewrite file_inputs_crlf.
  by destruct Hself; subst.
Qed.

Lemma join_fields_next (n : nat) (g : string) (rest : list string) :
  join_fields (S n) (g :: rest)
  = String delimiter (join_append g false +:+ join_fields (S (S n)) rest).
Proof. reflexivity. Qed.

(** A whole record: the fields from [f] on, then the line terminator. *)
Lemma read_fields (rest : list string) : ∀ f q st fs rows X n,
  st = START_FIELD
  ∨ (st = START_RECORD ∧ (join_append f q ≠ EmptyString ∨ rest ≠ [])) →
  read_all (mkReader st EmptyString fs)
    (file_inputs (join_append f q +:+ join_fields (S n) rest
                  +:+ lineterminator +:+ X)) rows
  = read_all parse_reset (file_inputs X) (rows ++ [fs ++ f :: rest]).
Proof.
  induction rest as [|g rest IH]; intros f q st fs rows X n Hst.
  - cbn [join_fields]. rewrite string_app_nil_l.
    destruct (read_field f q st fs rows (lineterminator +:+ X))
      as (self & -> & Hself & Hempty);
      [destruct Hst as [->|[-> _]]; auto|done|].
    apply (read_lineterminator st); [done|].
    intros Hrec. destruct Hst as [->|[-> [Hne|?]]]; [|by apply Hne, Hempty|done].
    by inversion Hself; subst.
  - rewrite join_fields_next, string_app_cons.
    destruct (read_field f q st fs rows
      (String delimiter ((join_append g false +:+ join_fields (S (S n)) rest)
                         +:+ lineterminator +:+ X)))
      as (self & -> & Hself & _);
      [destruct Hst as [->|[-> _]]; auto|done|].
    rewrite (read_delimiter st f fs)
      by (try (rewrite string_app_assoc; do 2 apply string_app_nonempty_r); done).
    rewrite string_app_assoc, IH by by left.
    by rewrite <-app_assoc.
Qed.

Lemma join_append_empty (f : string) :
  join_append f false = EmptyString → f = EmptyString.
Proof.
  unfold join_append. destruct (false || want_quotes f); [done|].
  destruct f as [|c f]; [done|]. cbn [double_quotes].
  by destruct (Ascii.eqb c quotechar).
Qed.

(** One row written by [writerow] is read back as that row. *)
Lemma read_writerow (row : list string) rows X :
  read_all parse_reset (file_inputs (writerow row +:+ X)) rows
  = read_all parse_reset (file_inputs X) (rows ++ [row]).
Proof.
  unfold writerow. destruct row as [|f rest].
  { cbn [join_fields length]. rewrite bool_decide_false by lia.
    cbn [andb]. rewrite string_app_nil_l, file_inputs_crlf. reflexivity. }
  cbn [length]. rewrite bool_decide_true by lia. cbn [andb join_fields].
  rewrite string_app_nil_l.
  destruct (is_empty _) eqn:Hrec.
  - assert (join_append f false = EmptyString ∧ rest = []) as [Hf ->].
    { destruct (join_append f false); [|done].
      split; [done|]. by destruct rest. }
    apply join_append_empty in Hf as ->.
    rewrite string_app_assoc.
    apply (read_fields [] EmptyString true START_RECORD [] rows X 0).
    right. split; [done|by left].
  - rewrite !string_app_assoc.
    apply (read_fields rest f false START_RECORD [] rows X 0). right.
    split; [done|].
    destruct (join_append f false) eqn:Hf; [|by left]. right.
    intros ->. by rewrite string_app_nil_l in Hrec.
Qed.

Lemma read_writerows (data : list (list string)) : ∀ rows,
  read_all parse_reset (file_inputs (writerows data)) rows = Some (rows ++ data).
Proof.
  induction data as [|row data IH]; intros rows.
  { by rewrite app_nil_r. }
  cbn [writerows]. rewrite read_writerow, IH. by rewrite <-app_assoc.
Qed.

(** Reading back what the writer wrote gives the rows written. *)
Lemma parse_writerows (data : list (list string)) :
  parse (writerows data) = Some data.
Proof. apply (read_writerows data []). Qed.

End csv_roundtrip.

(** ** Running computations *)

Lemma run_bind {A B} (m : M A) (f : A → M B) (w : World) :
  (m ≫= f) w
  = match m w with
    | (Return a, w') => f a w'
    | (Raise e, w') => (Raise e, w')
    end.
Proof. reflexivity. Qed.

Lemma set_disk_same (w : World) : set_disk (disk w) w = w.
Proof. by destruct w. Qed.

(** A pair whose first component is known. *)
Lemma pair_eta {A B} (p : A * B) (a : A) : p.1 = a → p = (a, p.2).
Proof. intros <-. by destruct p. Qed.

(** ** [create_csv] *)

Lemma slice_to_from (n : nat) (s : string) :
  slice_to n s +:+ slice_from n s = s.
Proof.
  revert n. induction s as [|c s IH]; intros [|n]; try done.
  cbn [slice_to slice_from]. by rewrite string_app_cons, IH.
Qed.

Lemma is_prefix_slice_to (n : nat) (s : string) : is_prefix (slice_to n s) s.
Proof. exists (slice_from n s). by rewrite slice_to_from. Qed.

Lemma is_prefix_refl (s : string) : is_prefix s s.
Proof. exists EmptyString. by rewrite string_app_nil_r. Qed.

Lemma is_prefix_trans (a b c : string) :
  is_prefix a b → is_prefix b c → is_prefix a c.
Proof.
  intros [r1 ->] [r2 ->]. exists (r1 +:+ r2). by rewrite string_app_assoc.
Qed.

Lemma is_prefix_app (a b : string) : is_prefix a (a +:+ b).
Proof. by exists b. Qed.

(** Writing rows to an open file appends their text, when no write is
    refused. *)
Lemma write_rows (p : string) (rows : list (list string)) : ∀ w c,
  (∀ text, os_fault w (Write p text) = None) →
  disk w !! p = Some (File c) →
  for_each rows (λ row, file_write p (csv.writerow row)) w
  = (Return tt, set_disk (<[p := File (c +:+ csv.writerows rows)]> (disk w)) w).
Proof.
  induction rows as [|row rows IH]; intros w c Hquiet Hp.
  { cbn [for_each csv.writerows]. rewrite string_app_nil_r, insert_id by done.
    by rewrite set_disk_same. }
  cbn [for_each csv.writerows]. rewrite run_bind.
  unfold file_write at 1. rewrite Hp, Hquiet.
  rewrite (IH _ (c +:+ csv.writerow row)); [|done|apply lookup_insert_eq].
  cbn. by rewrite insert_insert_eq, string_app_assoc.
Qed.

Lemma file_write_run (p text : string) (w : World) (c : string) :
  disk w !! p = Some (File c) →
  file_write p text w
  = match os_fault w (Write p text) with
    | Some f =>
        (Raise (fault_exn f),
         set_disk (<[p := File (slice_to (kept f) (c +:+ text))]> (disk w)) w)
    | None => (Return tt, set_disk (<[p := File (c +:+ text)]> (disk w)) w)
    end.
Proof. intros Hp. unfold file_write. by rewrite Hp. Qed.

(** Whatever is refused, the file holds a prefix of the rows afterwards,
    and all of them when the loop returns. *)
Lemma write_rows_result (p : string) (rows : list (list string)) : ∀ w c,
  disk w !! p = Some (File c) →
  let r := for_each rows (λ row, file_write p (csv.writerow row)) w in
  ∃ text,
    r.2 = set_disk (<[p := File text]> (disk w)) w
    ∧ match r.1 with
      | Return _ => text = c +:+ csv.writerows rows
      | Raise _ => is_prefix text (c +:+ csv.writerows rows)
      end.
Proof.
  induction rows as [|row rows IH]; intros w c Hp; cbv zeta.
  { exists c. cbn [for_each csv.writerows mret M_ret fst snd].
    rewrite string_app_nil_r, insert_id by done. by rewrite set_disk_same. }
  cbn [for_each csv.writerows]. rewrite run_bind.
  rewrite (file_write_run p _ w c) by done.
  destruct (os_fault w (Write p (csv.writerow row))) as [f|].
  - eexists. split; [done|]. cbn [fst].
    eapply is_prefix_trans; [apply is_prefix_slice_to|].
    rewrite <-string_app_assoc. apply is_prefix_app.
  - destruct (IH (set_disk (<[p := File (c +:+ csv.writerow row)]> (disk w)) w)
                 (c +:+ csv.writerow row)) as (text & Hw & Htext);
      [apply lookup_insert_eq|].
    cbv zeta in *. exists text. split.
    + rewrite Hw. cbn. by rewrite insert_insert_eq.
    + by rewrite <-string_app_assoc.
Qed.

Lemma file_close_result (p : string) (w : World) (c : string) :
  disk w !! p = Some (File c) →
  ∃ text,
    (file_close p w).2 = set_disk (<[p := File text]> (disk w)) w
    ∧ match (file_close p w).1 with
      | Return _ => text = c ∧ os_fault w (Close p) = None
      | Raise _ => is_prefix text c
      end.
Proof.
  intros Hp. unfold file_close. destruct (os_fault w (Close p)) as [f|].
  - rewrite Hp. eexists. split; [done|]. apply is_prefix_slice_to.
  - exists c. cbn [fst snd]. by rewrite insert_id, set_disk_same.
Qed.

Lemma forallb_removelast {A} (f : A → bool) (l : list A) :
  forallb f l = true → forallb f (removelast l) = true.
Proof.
  induction l as [|x [|y l] IH]; [done..|].
  change (removelast (x :: y :: l)) with (x :: removelast (y :: l)).
  cbn [forallb] in *. intros [-> H]%andb_true_iff. by rewrite IH.
Qed.

Lemma forallb_last (f : string → bool) (l : list string) :
  l ≠ [] → forallb f l = true → f (last_item l) = true.
Proof.
  unfold last_item. induction l as [|x [|y l] IH]; [done|..].
  - intros _. cbn. by rewrite andb_true_r.
  - intros _ [_ H]%andb_true_iff. rewrite last_cons_cons. by apply IH.
Qed.

Lemma split_from_nonempty (s : string) : ∀ cur, split_from cur s SLASH ≠ [].
Proof. induction s as [|c s IH]; intros cur; cbn; [done|]. by destruct (Ascii.eqb c SLASH). Qed.

Lemma open_w_returns (path : string) (w : World) f w' :
  open_w path w = (Return f, w') →
  f = path
  ∧ w' = set_disk (<[path := File EmptyString]> (disk w)) w
  ∧ char_in NUL path = false
  ∧ os_fault w (OpenW path) = None
  ∧ is_name (last_item (str_split path SLASH)) = true
  ∧ disk w !! path ≠ Some Dir
  ∧ (forallb is_name (removelast (str_split path SLASH)) = true →
     lookup_dirs (disk w) EmptyString (str_split path SLASH) = None).
Proof.
  unfold open_w. destruct (is_empty path); [done|].
  destruct (char_in NUL path); [done|].
  destruct (os_fault w (OpenW path)); [done|]. cbv zeta.
  destruct (forallb is_name (removelast (str_split path SLASH))) eqn:Hdirs.
  - destruct (lookup_dirs _ _ _) as [e|] eqn:Hwalk; [done|].
    destruct (is_name (last_item (str_split path SLASH))) eqn:Hlast; [|done].
    case_bool_decide as Hdir; [done|]. cbn [negb orb]. intros [= <- <-].
    split_and!; [done..|]. intros _.
    destruct (is_empty (last_item (str_split path SLASH))) eqn:Hempty; [|done].
    unfold is_name in Hlast. by rewrite Hempty in Hlast.
  - destruct (is_name (last_item (str_split path SLASH))) eqn:Hlast; [|done].
    case_bool_decide as Hdir; [done|]. cbn [negb orb]. intros [= <- <-].
    by split_and!.
Qed.

Lemma open_w_raises (path : string) (w : World) e w' :
  open_w path w = (Raise e, w') → w' = w.
Proof.
  unfold open_w. destruct (is_empty path); [by intros [= _ <-]|].
  destruct (char_in NUL path); [by intros [= _ <-]|].
  destruct (os_fault w (OpenW path)); [by intros [= _ <-]|]. cbv zeta.
  destruct (if forallb _ _ then _ else _); [by intros [= _ <-]|].
  destruct (_ || _); [by intros [= _ <-]|done].
Qed.

Lemma create_csv_unfold header data file_name w :
  let p := os_path_join "data" file_name in
  create_csv header data file_name w
  = match os_makedirs "data" (set_calls (calls w ++ [create_csv_fn]) w) with
    | (Raise e, w2) => (Raise e, w2)
    | (Return _, w2) =>
        match open_w p w2 with
        | (Raise e, w3) => (Raise e, w3)
        | (Return f, w3) =>
            match for_each (header :: data)
                    (λ row, file_write f (csv.writerow row)) w3 with
            | (Return _, w4) =>
                match file_close f w4 with
                | (Return _, w5) => (Return p, w5)
                | (Raise e, w5) => (Raise e, w5)
                end
            | (Raise e, w4) =>
                match file_close f w4 with
                | (Return _, w5) => (Raise e, w5)
                | (Raise e', w5) => (Raise e', w5)
                end
            end
        end
    end.
Proof.
  intros p. unfold create_csv. fold p. rewrite run_bind. cbn [enter].
  rewrite run_bind. destruct (os_makedirs _ _) as [[[]|e] w2]; [|done].
  rewrite run_bind. unfold with_open_w. rewrite run_bind.
  destruct (open_w p w2) as [[f|e] w3]; [|done].
  cbn [for_each].
  destruct ((file_write f (csv.writerow header) ;; for_each data _) w3)
    as [[[]|e] w4].
  - rewrite run_bind. by destruct (file_close f w4) as [[[]|e] w5].
  - rewrite run_bind. by destruct (file_close f w4) as [[[]|e'] w5].
Qed.

Lemma os_path_join_data_ne (file_name : string) :
  os_path_join "data" file_name ≠ "data".
Proof.
  unfold os_path_join. case_bool_decide as H; [by intros ->|].
  cbn [is_empty orb]. change (endswith_char "data" SLASH) with false.
  cbv iota. intros Heq.
  change ("data" +:+ String SLASH EmptyString +:+ file_name)
    with (String "d" (String "a" (String "t" (String "a"
            (String SLASH file_name))))) in Heq.
  done.
Qed.

Lemma os_makedirs_data (w : World) :
  let d := <["data" := Dir]> (disk w) in
  (∃ e, os_makedirs "data" w = (Raise e, w))
  ∨ os_makedirs "data" w = (Return tt, set_disk d w)
    ∧ (∀ c, disk w !! "data" ≠ Some (File c))
    ∧ (disk w !! "data" = None → os_fault w (Mkdir "data") = None).
Proof.
  cbv zeta. unfold os_makedirs.
  destruct (disk w !! "data") as [[c|]|] eqn:E; [left; by eexists| |].
  - right. rewrite <-E, insert_id, set_disk_same by done. by rewrite E.
  - destruct (os_fault w (Mkdir "data")); [left; by eexists|by right].
Qed.

(** What a call of [create_csv] leaves: when it returns, the file with
    all rows; when it raises, the disk as it was, or with the directory
    made, or with the directory made and a prefix of the rows in the
    file. *)
Lemma create_csv_result header data file_name w :
  let p := os_path_join "data" file_name in
  let w1 := set_calls (calls w ++ [create_csv_fn]) w in
  let d := <["data" := Dir]> (disk w) in
  let full := csv.writerows (header :: data) in
  let r := create_csv header data file_name w in
  match r.1 with
  | Return p' =>
      p' = p ∧ r.2 = set_disk (<[p := File full]> d) w1
      ∧ (∀ c, disk w !! "data" ≠ Some (File c))
      ∧ char_in NUL p = false
      ∧ is_name (last_item (str_split p SLASH)) = true
      ∧ d !! p ≠ Some Dir
      ∧ (forallb is_name (removelast (str_split p SLASH)) = true →
         lookup_dirs d EmptyString (str_split p SLASH) = None)
  | Raise e =>
      r.2 = w1 ∨ r.2 = set_disk d w1
      ∨ ∃ text, is_prefix text full ∧ r.2 = set_disk (<[p := File text]> d) w1
  end.
Proof.
  intros p w1 d full r. subst r. rewrite create_csv_unfold. fold p w1.
  destruct (os_makedirs_data w1) as [[e ->]|(-> & Hdata & _)]; [by left|].
  change (disk w1) with (disk w) in *. fold d.
  destruct (open_w p (set_disk d w1)) as [[f|e] w3] eqn:Hopen;
    [|apply open_w_raises in Hopen as ->; by right; left].
  apply open_w_returns in Hopen
    as (-> & -> & Hnul & _ & Hlast & Hdir & Hwalk).
  cbn [disk set_disk] in Hdir, Hwalk.
  pose proof (write_rows_result p (header :: data)
                (set_disk (<[p := File EmptyString]> d) w1) EmptyString)
    as (text & Hw4 & Htext); [apply lookup_insert_eq|].
  cbv zeta in Hw4, Htext. rewrite string_app_nil_l in Htext. fold full in Htext.
  destruct (for_each (header :: data) _ _) as [r4 w4]. cbn [fst snd] in *.
  subst w4. cbn [disk set_disk] in *. rewrite insert_insert_eq.
  pose proof (file_close_result p (set_disk (<[p := File text]> d) w1) text)
    as (text' & Hw5 & Htext'); [apply lookup_insert_eq|].
  destruct (file_close p _) as [r5 w5]. cbn [fst snd] in *. subst w5.
  cbn [disk set_disk] in *. rewrite insert_insert_eq.
  destruct r4 as [[]|e4], r5 as [[]|e5]; cbn [fst snd].
  - destruct Htext' as [-> _]. subst text. by split_and!.
  - right; right. exists text'. split; [by subst text|done].
  - right; right. exists text'. destruct Htext' as [-> _]. done.
  - right; right. exists text'. split; [by eapply is_prefix_trans|done].
Qed.

Lemma os_path_join_data (file_name : string) :
  first_char file_name ≠ Some SLASH →
  os_path_join "data" file_name = "data/" +:+ file_name.
Proof. intros H. unfold os_path_join. by rewrite bool_decide_false. Qed.





(** ** The upload backends *)

Lemma upload_file_frame c p b k acl l w :
  upload_file c p b k acl (set_calls l w)
  = ((upload_file c p b k acl w).1, set_calls l (upload_file c p b k acl w).2).
Proof.
  unfold upload_file. cbn [disk s3_fault buckets set_calls].
  destruct (disk w !! p) as [[content|]|]; [|done..].
  by destruct (s3_fault w _).
Qed.

Lemma upload_file_to_s3_run (file_name : string) (w : World) :
  upload_file_to_s3 file_name w
  = let w1 := set_calls (calls w ++ [upload_file_to_s3_fn]) w in
    match environ w !! "AWS_ACCESS_KEY_ID" with
    | None => (Raise (KeyError "AWS_ACCESS_KEY_ID"), w1)
    | Some access_key =>
        match environ w !! "AWS_SECRET_ACCESS_KEY" with
        | None => (Raise (KeyError "AWS_SECRET_ACCESS_KEY"), w1)
        | Some secret_key =>
            match upload_file (s3_client_of access_key secret_key)
                    (os_path_join "data" file_name) bucket_name
                    (os_path_basename file_name) "public-read" w1 with
            | (Return _, w2) =>
                (Return (Some (public_url bucket_name s3_host
                                 (os_path_basename file_name))), w2)
            | (Raise e, w2) =>
                if isinstance_Exception e
                then (Return None,
                      set_stdout (stdout w2 ++
                        ["Error uploading file to S3: " +:+ Exn_str e]) w2)
                else (Raise e, w2)
            end
        end
    end.
Proof.
  unfold upload_file_to_s3. rewrite run_bind. cbn [enter]. cbv zeta.
  rewrite run_bind. unfold os_environ_getitem at 1. cbn [environ set_calls].
  destruct (environ w !! "AWS_ACCESS_KEY_ID") as [access_key|]; [|done].
  rewrite run_bind. unfold os_environ_getitem at 1. cbn [environ set_calls].
  destruct (environ w !! "AWS_SECRET_ACCESS_KEY") as [secret_key|]; [|done].
  unfold try_except. rewrite run_bind.
  change (boto3_client None access_key secret_key "ap-southeast-1")
    with (s3_client_of access_key secret_key).
  change "tesa-medication-schedules" with bucket_name.
  destruct (upload_file _ _ _ _ _ _) as [[[]|e] w2]; [done|].
  by destruct (isinstance_Exception e).
Qed.

Lemma upload_file_to_wasabi_run (file_name : string) (w : World) :
  upload_file_to_wasabi file_name w
  = let w1 := set_calls (calls w ++ [upload_file_to_wasabi_fn]) w in
    match environ w !! "WASABI_ACCESS_KEY" with
    | None => (Raise (KeyError "WASABI_ACCESS_KEY"), w1)
    | Some access_key =>
        match environ w !! "WASABI_SECRET_KEY" with
        | None => (Raise (KeyError "WASABI_SECRET_KEY"), w1)
        | Some secret_key =>
            match upload_file (wasabi_client_of access_key secret_key)
                    (os_path_join "data" file_name) bucket_name
                    (last_item (str_split file_name SLASH)) "public-read" w1 with
            | (Return _, w2) =>
                (Return (Some (public_url bucket_name wasabi_host
                                 (last_item (str_split file_name SLASH)))), w2)
            | (Raise e, w2) =>
                if isinstance_NoCredentialsError e
                then (Return None,
                      set_stdout (stdout w2 ++ ["Credentials not available"]) w2)
                else (Raise e, w2)
            end
        end
    end.
Proof.
  unfold upload_file_to_wasabi. rewrite run_bind. cbn [enter]. cbv zeta.
  rewrite run_bind. unfold os_environ_getitem at 1. cbn [environ set_calls].
  destruct (environ w !! "WASABI_ACCESS_KEY") as [access_key|]; [|done].
  rewrite run_bind. unfold os_environ_getitem at 1. cbn [environ set_calls].
  destruct (environ w !! "WASABI_SECRET_KEY") as [secret_key|]; [|done].
  unfold try_except. rewrite run_bind.
  change (boto3_client _ access_key secret_key "ap-southeast-1")
    with (wasabi_client_of access_key secret_key).
  change "tesa-medication-schedules" with bucket_name.
  destruct (upload_file _ _ _ _ _ _) as [[[]|e] w2]; [done|].
  by destruct (isinstance_NoCredentialsError e).
Qed.

(** *** The object key: both backends take the text after the last slash *)

Lemma split_from_last (s : string) : ∀ cur,
  last (split_from cur s SLASH)
  = Some (default (cur +:+ s) (after_last_slash s)).
Proof.
  induction s as [|c s IH]; intros cur.
  { cbn. by rewrite string_app_nil_r. }
  cbn [split_from after_last_slash].
  destruct (Ascii.eqb c SLASH).
  - rewrite last_cons, IH. by destruct (after_last_slash s).
  - rewrite IH, string_app_assoc. by destruct (after_last_slash s).
Qed.

Lemma rfind_from_slash (s : string) : ∀ i found,
  rfind_from s SLASH i found
  = match after_last_slash s with
    | Some t => (i + Z.of_nat (String.length s) - Z.of_nat (String.length t) - 1)%Z
    | None => found
    end.
Proof.
  induction s as [|c s IH]; intros i found; [done|].
  cbn [rfind_from after_last_slash String.length]. rewrite IH.
  destruct (after_last_slash s) as [t|]; [lia|].
  destruct (Ascii.eqb c SLASH); [lia|done].
Qed.

Lemma after_last_slash_slice (s t : string) :
  after_last_slash s = Some t →
  String.length t < String.length s
  ∧ slice_from (String.length s - String.length t) s = t.
Proof.
  revert t. induction s as [|c s IH]; intros t; [done|].
  cbn [after_last_slash String.length].
  destruct (after_last_slash s) as [t'|].
  - intros [= <-]. destruct (IH t' eq_refl) as [Hlen Hslice].
    split; [lia|].
    replace (S (String.length s) - String.length t')
      with (S (String.length s - String.length t')) by lia.
    done.
  - destruct (Ascii.eqb c SLASH); [|done]. intros [= <-].
    split; [lia|].
    by replace (S (String.length s) - String.length s) with 1 by lia.
Qed.

Lemma os_path_basename_after_last_slash (p : string) :
  os_path_basename p = default p (after_last_slash p).
Proof.
  unfold os_path_basename, rfind. rewrite rfind_from_slash.
  destruct (after_last_slash p) as [t|] eqn:Ht; [|done].
  apply after_last_slash_slice in Ht as [Hlen Hslice].
  transitivity (slice_from (String.length p - String.length t) p); [|done].
  f_equal. lia.
Qed.

(** [file_name.split('/')[-1]] is [os.path.basename(file_name)]. *)
Lemma split_last_is_basename (file_name : string) :
  last_item (str_split file_name SLASH) = os_path_basename file_name.
Proof.
  unfold last_item, str_split.
  by rewrite split_from_last, os_path_basename_after_last_slash.
Qed.

Lemma upload_with_run (b : Backend) (file_name : string) (w : World)
    (access_key secret_key : string) :
  environ w !! access_key_var b = Some access_key →
  environ w !! secret_key_var b = Some secret_key →
  let w1 := set_calls (calls w ++ [match b with
                                   | Wasabi => upload_file_to_wasabi_fn
                                   | S3 => upload_file_to_s3_fn
                                   end]) w in
  let key := os_path_basename file_name in
  upload_with b file_name w
  = match upload_file (client_of b access_key secret_key)
            (os_path_join "data" file_name) bucket_name key "public-read" w with
    | (Return _, w2) =>
        (Return (Some (public_url bucket_name (host_of b) key)),
         set_calls (calls w1) w2)
    | (Raise e, w2) =>
        match b with
        | S3 =>
            if isinstance_Exception e
            then (Return None,
                  set_stdout (stdout w ++
                    ["Error uploading file to S3: " +:+ Exn_str e]) w1)
            else (Raise e, w1)
        | Wasabi =>
            if isinstance_NoCredentialsError e
            then (Return None,
                  set_stdout (stdout w ++ ["Credentials not available"]) w1)
            else (Raise e, w1)
        end
    end.
Proof.
  intros Haccess Hsecret w1 key. subst key.
  destruct b; cbn [upload_with access_key_var secret_key_var client_of host_of]
    in *.
  - rewrite upload_file_to_wasabi_run, Haccess, Hsecret. cbv zeta.
    rewrite split_last_is_basename, upload_file_frame.
    unfold upload_file. destruct (disk w !! _) as [[content|]|]; [|done..].
    by destruct (s3_fault w _) as [e|]; [destruct e|].
  - rewrite upload_file_to_s3_run, Haccess, Hsecret. cbv zeta.
    rewrite upload_file_frame.
    unfold upload_file. destruct (disk w !! _) as [[content|]|]; [|done..].
    by destruct (s3_fault w _) as [e|]; [destruct e|].
Qed.

Lemma upload_error_missing_file c file_name key w :
  disk w !! os_path_join "data" file_name = None →
  upload_error c file_name key w
  = Some (FileNotFoundError (os_path_join "data" file_name)).
Proof. intros H. unfold upload_error, upload_file. by rewrite H. Qed.

(** C7.  With the credentials of a backend in the environment, when the
    upload call of that backend succeeds the backend returns the URL
    [https://<bucket>.<service-host>/<object-key>] for the fixed bucket
    and the host of its service and region, the key being the basename of
    the file name, and the object stored under that key is the local file
    [data/<file_name>] with ACL [public-read]. *)
Theorem upload_success_returns_public_url
    (b : Backend) (file_name : string) (w : World)
    (access_key secret_key : string) :
  environ w !! access_key_var b = Some access_key →
  environ w !! secret_key_var b = Some secret_key →
  upload_error (client_of b access_key secret_key) file_name
               (os_path_basename file_name) w = None →
  ∃ w' body,
    upload_with b file_name w
    = (Return (Some (public_url bucket_name (host_of b)
                                (os_path_basename file_name))), w')
    ∧ disk w !! os_path_join "data" file_name = Some (File body)
    ∧ buckets w' !! ("https://" +:+ host_of b, bucket_name,
                     os_path_basename file_name)
      = Some (mkS3Object body "public-read").
Proof.
  intros Haccess Hsecret Hok.
  rewrite (upload_with_run b file_name w access_key secret_key) by done.
  cbv zeta. unfold upload_error, upload_file in *.
  destruct (disk w !! os_path_join "data" file_name) as [[body|]|]; [|done..].
  destruct (s3_fault w _); [done|].
  eexists _, body. split_and!; [done..|].
  cbn [buckets set_buckets set_calls].
  destruct b; apply lookup_insert_eq.
Qed.

Lemma upload_success_returns_public_url_witness :
  let w := quiet_world {["AWS_ACCESS_KEY_ID" := "id"; "AWS_SECRET_ACCESS_KEY" := "key"]}
                       {["data" := Dir; "data/plan.csv" := File "a,b"]} in
  ∃ w' body,
    upload_with S3 "plan.csv" w
    = (Return (Some "https://tesa-medication-schedules.s3.ap-southeast-1.amazonaws.com/plan.csv"), w')
    ∧ disk w !! os_path_join "data" "plan.csv" = Some (File body)
    ∧ buckets w' !! ("https://" +:+ host_of S3, bucket_name,
                     os_path_basename "plan.csv")
      = Some (mkS3Object body "public-read").
Proof.
  intros w.
  apply (upload_success_returns_public_url S3 "plan.csv" w "id" "key");
    by vm_compute.
Defined.

(** C2 (amended).  With the credentials of a backend in the environment,
    when the upload call fails with [e]: [upload_file_to_s3] returns
    [None] and prints a diagnostic for every [e] that is an [Exception];
    [upload_file_to_wasabi] returns [None] and prints a diagnostic when
    [e] is [NoCredentialsError], and lets any other [e] reach the caller,
    printing nothing (as [upload_file_to_s3] does for an [e] that is no
    [Exception]). *)
Theorem upload_failure_handling
    (b : Backend) (file_name : string) (w : World)
    (access_key secret_key : string) (e : Exn) :
  environ w !! access_key_var b = Some access_key →
  environ w !! secret_key_var b = Some secret_key →
  upload_error (client_of b access_key secret_key) file_name
               (os_path_basename file_name) w = Some e →
  ∃ w',
    match b with
    | S3 =>
        if isinstance_Exception e
        then upload_file_to_s3 file_name w = (Return None, w')
             ∧ stdout w' = stdout w
                           ++ ["Error uploading file to S3: " +:+ Exn_str e]
        else upload_file_to_s3 file_name w = (Raise e, w')
             ∧ stdout w' = stdout w
    | Wasabi =>
        if isinstance_NoCredentialsError e
        then upload_file_to_wasabi file_name w = (Return None, w')
             ∧ stdout w' = stdout w ++ ["Credentials not available"]
        else upload_file_to_wasabi file_name w = (Raise e, w')
             ∧ stdout w' = stdout w
    end.
Proof.
  intros Haccess Hsecret Herr.
  pose proof (upload_with_run b file_name w access_key secret_key
                Haccess Hsecret) as Hrun.
  cbv zeta in Hrun. unfold upload_error in Herr.
  destruct (upload_file _ _ _ _ _ w) as [[[]|e'] w2]; [done|].
  injection Herr as ->.
  destruct b; cbn [upload_with] in Hrun; rewrite Hrun.
  - destruct (isinstance_NoCredentialsError e); by eexists.
  - destruct (isinstance_Exception e); by eexists.
Qed.

Lemma upload_failure_handling_witness :
  let w := quiet_world {["AWS_ACCESS_KEY_ID" := "id"; "AWS_SECRET_ACCESS_KEY" := "key"]}
                       {["data" := Dir]} in
  ∃ w', upload_file_to_s3 "missing.csv" w = (Return None, w')
        ∧ stdout w'
          = ["Error uploading file to S3: [Errno 2] No such file or directory: 'data/missing.csv'"].
Proof.
  intros w.
  apply (upload_failure_handling S3 "missing.csv" w "id" "key"
           (FileNotFoundError "data/missing.csv")); by vm_compute.
Defined.

(** C2 as stated fails: with its credentials set, [upload_file_to_wasabi]
    given the name of a file that does not exist raises
    [FileNotFoundError]; and with no credentials in the environment both
    backends raise [KeyError]. *)
Lemma upload_failures_that_raise :
  (upload_file_to_wasabi "missing.csv"
     (quiet_world {["WASABI_ACCESS_KEY" := "id"; "WASABI_SECRET_KEY" := "key"]}
                  {["data" := Dir]})).1
  = Raise (FileNotFoundError "data/missing.csv")
  ∧ (upload_file_to_wasabi "plan.csv"
       (quiet_world ∅ {["data" := Dir; "data/plan.csv" := File "a,b"]})).1
    = Raise (KeyError "WASABI_ACCESS_KEY")
  ∧ (upload_file_to_s3 "plan.csv"
       (quiet_world ∅ {["data" := Dir; "data/plan.csv" := File "a,b"]})).1
    = Raise (KeyError "AWS_ACCESS_KEY_ID").
Proof. by vm_compute. Qed.

(** ** The callables entered by a run *)

Lemma upload_file_calls c p b k acl w :
  calls (upload_file c p b k acl w).2 = calls w.
Proof.
  unfold upload_file. destruct (disk w !! p) as [[content|]|]; [|done..].
  by destruct (s3_fault w _).
Qed.

Lemma create_csv_calls header data file_name w :
  calls (create_csv header data file_name w).2 = calls w ++ [create_csv_fn].
Proof.
  pose proof (create_csv_result header data file_name w) as H. cbv zeta in H.
  destruct (create_csv header data file_name w) as [[p|e] w']; cbn [fst snd] in *.
  - by destruct H as (_ & -> & _).
  - by destruct H as [->|[->|(text & _ & ->)]].
Qed.

Lemma upload_file_to_s3_calls file_name w :
  calls (upload_file_to_s3 file_name w).2 = calls w ++ [upload_file_to_s3_fn].
Proof.
  rewrite upload_file_to_s3_run. cbv zeta.
  destruct (environ w !! "AWS_ACCESS_KEY_ID"); [|done].
  destruct (environ w !! "AWS_SECRET_ACCESS_KEY"); [|done].
  rewrite upload_file_frame.
  pose proof (upload_file_calls (s3_client_of s s0)
    (os_path_join "data" file_name) bucket_name (os_path_basename file_name)
    "public-read" w) as Hcalls.
  destruct (upload_file _ _ _ _ _ _) as [[[]|e] w2]; [done|].
  cbn [fst snd]. by destruct (isinstance_Exception e).
Qed.

Lemma get_all_files_in_data_folder_run folder_path w :
  get_all_files_in_data_folder folder_path w
  = let w1 := set_calls (calls w ++ [get_all_files_in_data_folder_fn]) w in
    match disk w !! folder_path with
    | Some Dir => (Return (dir_entries (disk w) folder_path), w1)
    | Some (File _) => (Raise (NotADirectoryError folder_path), w1)
    | None => (Raise (FileNotFoundError folder_path), w1)
    end.
Proof.
  unfold get_all_files_in_data_folder. rewrite run_bind. cbn [enter].
  rewrite run_bind. unfold os_listdir. cbn [disk set_calls].
  by destruct (disk w !! folder_path) as [[c|]|].
Qed.

Lemma get_all_files_in_data_folder_calls folder_path w :
  calls (get_all_files_in_data_folder folder_path w).2
  = calls w ++ [get_all_files_in_data_folder_fn].
Proof.
  rewrite get_all_files_in_data_folder_run. cbv zeta.
  by destruct (disk w !! folder_path) as [[c|]|].
Qed.

Lemma get_connery_actions_calls w :
  calls (_get_connery_actions w).2 = calls w ++ [get_connery_actions_fn].
Proof.
  unfold _get_connery_actions. rewrite run_bind. cbn [enter].
  rewrite run_bind. unfold cache_get. cbn [connery_cache set_calls].
  destruct (connery_cache w) as [tools|]; [done|].
  rewrite run_bind. unfold os_environ_get at 1. rewrite run_bind.
  unfold os_environ_get at 1. rewrite run_bind. cbn [environ set_calls].
  unfold ConneryService.
  destruct (environ w !! "CONNERY_RUNNER_URL") as [url|]; [|done].
  destruct (environ w !! "CONNERY_RUNNER_API_KEY") as [key|]; [|done].
  destruct (is_empty url || is_empty key); [done|].
  cbn [mret M_ret]. rewrite run_bind. unfold ConneryToolkit_get_tools.
  cbn [connery_list_actions set_calls].
  by destruct (connery_list_actions w _ _).
Qed.

(** ** The directory listing tool *)

(** C4.  Whatever folder the caller passes, both run methods of
    [GetFilesInDataFolder] return the listing of the directory [data]: two
    folder arguments give the same result in the same world, also when the
    tool is run through its public entry points; the function underneath
    does list the folder it is given. *)
Theorem listing_ignores_folder_argument (folder1 folder2 : string) (w : World) :
  GetFilesInDataFolder._run folder1 w = GetFilesInDataFolder._run folder2 w
  ∧ GetFilesInDataFolder._arun folder1 w = GetFilesInDataFolder._arun folder2 w
  ∧ (GetFilesInDataFolder._run folder1 w).1 = (os_listdir "data" w).1
  ∧ (GetFilesInDataFolder._arun folder1 w).1 = (os_listdir "data" w).1
  ∧ (∀ asynchronous,
       tool_run asynchronous GetFilesInDataFolder_tool
                (GetAllFilesInput folder1) w
       = tool_run asynchronous GetFilesInDataFolder_tool
                  (GetAllFilesInput folder2) w)
  ∧ (get_all_files_in_data_folder folder1 w).1 = (os_listdir folder1 w).1.
Proof.
  unfold GetFilesInDataFolder._run, GetFilesInDataFolder._arun.
  rewrite !get_all_files_in_data_folder_run. cbv zeta. unfold os_listdir.
  split_and!; [done|done| | |by intros []|].
  1,2: by destruct (disk w !! "data") as [[c|]|].
  by destruct (disk w !! folder1) as [[c|]|].
Qed.

Example listing_two_files :
  let w := quiet_world ∅ {["data" := Dir; "data/a.csv" := File "x";
                           "data/b.csv" := File "y"; "other" := Dir;
                           "other/c.csv" := File "z"]} in
  (GetFilesInDataFolder._run "other" w).1 = Return ["a.csv"; "b.csv"]
  ∧ (get_all_files_in_data_folder "other" w).1 = Return ["c.csv"].
Proof. by vm_compute. Qed.

(** ** Blocking and non-blocking entry points *)

Lemma bind_mret_calls {A B} (m : M A) (g : A → B) (w : World) :
  calls ((x ← m; mret (g x)) w).2 = calls (m w).2.
Proof. rewrite run_bind. by destruct (m w) as [[a|e] w1]. Qed.

Lemma upload_file_to_wasabi_calls file_name w :
  calls (upload_file_to_wasabi file_name w).2
  = calls w ++ [upload_file_to_wasabi_fn].
Proof.
  rewrite upload_file_to_wasabi_run. cbv zeta.
  destruct (environ w !! "WASABI_ACCESS_KEY"); [|done].
  destruct (environ w !! "WASABI_SECRET_KEY"); [|done].
  rewrite upload_file_frame.
  pose proof (upload_file_calls (wasabi_client_of s s0)
    (os_path_join "data" file_name) bucket_name
    (last_item (str_split file_name SLASH)) "public-read" w) as Hcalls.
  destruct (upload_file _ _ _ _ _ _) as [[[]|e] w2]; [done|].
  cbn [fst snd]. by destruct (isinstance_NoCredentialsError e).
Qed.

Lemma tool_run_calls (asynchronous : bool) (t : Tool) (input : ToolInput) w :
  calls (tool_run asynchronous t input w).2 = calls w ++ entered_by t input.
Proof.
  destruct t, input; cbn [tool_run entered_by]; rewrite ?app_nil_r; try done.
  - rewrite bind_mret_calls. destruct asynchronous; apply create_csv_calls.
  - rewrite bind_mret_calls. destruct asynchronous; apply upload_file_to_s3_calls.
  - rewrite bind_mret_calls.
    destruct asynchronous; apply get_all_files_in_data_folder_calls.
  - by destruct (connery_run_action w action_id text).
Qed.

(** C6.  For each of the three tools [_arun] is the same computation as
    [_run]: on every input and in every world it enters the same single
    function, changes the world the same way and returns the same
    result. *)
Theorem arun_same_as_run :
  (∀ header data file_name,
     CreateCSV._arun header data file_name = CreateCSV._run header data file_name
     ∧ CreateCSV._run header data file_name = create_csv header data file_name
     ∧ ∀ w, calls (CreateCSV._arun header data file_name w).2
            = calls w ++ [create_csv_fn])
  ∧ (∀ file_name,
       UploadCSV._arun file_name = UploadCSV._run file_name
       ∧ UploadCSV._run file_name = upload_file_to_s3 file_name
       ∧ ∀ w, calls (UploadCSV._arun file_name w).2
              = calls w ++ [upload_file_to_s3_fn])
  ∧ (∀ folder_path,
       GetFilesInDataFolder._arun folder_path
       = GetFilesInDataFolder._run folder_path
       ∧ GetFilesInDataFolder._run folder_path
         = get_all_files_in_data_folder "data"
       ∧ ∀ w, calls (GetFilesInDataFolder._arun folder_path w).2
              = calls w ++ [get_all_files_in_data_folder_fn])
  ∧ (∀ t input w, tool_run true t input w = tool_run false t input w).
Proof.
  split_and!.
  - intros. split_and!; [done..|]. intros w. apply create_csv_calls.
  - intros. split_and!; [done..|]. intros w. apply upload_file_to_s3_calls.
  - intros. split_and!; [done..|]. intros w.
    apply get_all_files_in_data_folder_calls.
  - by intros [] [].
Qed.

(** ** The registry *)

Lemma call_calls (v : Callable) (w : World) :
  calls (call v w).2 = calls w ++ entered_by_call v.
Proof.
  destruct v; cbn [call entered_by_call]; rewrite ?app_nil_r; try done.
  - by rewrite bind_mret_calls, get_all_files_in_data_folder_calls.
  - by rewrite bind_mret_calls, get_connery_actions_calls.
Qed.

Lemma call_returns_calls (v : Callable) (w : World) o w1 :
  call v w = (Return o, w1) → calls w1 = calls w ++ [v].
Proof.
  intros Hcall. pose proof (call_calls v w) as Hcalls.
  rewrite Hcall in Hcalls. by destruct v.
Qed.

(** C10.  [UploadCSV] says it uploads to Wasabi, yet [_run] and [_arun]
    are [upload_file_to_s3]: they enter that function and no other.
    [upload_file_to_wasabi] logs its entry whenever it is called, and no
    such entry is ever logged by calling a registered factory, by running
    a tool a registered factory returned, or by running any tool at all,
    through either entry point and on any input. *)
Theorem upload_tool_uses_s3_not_wasabi :
  UploadCSV.description = "Upload a CSV file to Wasabi Hot Cloud Storage."
  ∧ (∀ file_name w,
       UploadCSV._run file_name w = upload_file_to_s3 file_name w
       ∧ UploadCSV._arun file_name w = upload_file_to_s3 file_name w
       ∧ calls (UploadCSV._run file_name w).2 = calls w ++ [upload_file_to_s3_fn]
       ∧ calls (UploadCSV._arun file_name w).2 = calls w ++ [upload_file_to_s3_fn]
       ∧ calls (upload_file_to_wasabi file_name w).2
         = calls w ++ [upload_file_to_wasabi_fn])
  ∧ (∀ k v w, (k, v) ∈ TOOLS →
       ∃ l, calls (call v w).2 = calls w ++ l ∧ upload_file_to_wasabi_fn ∉ l)
  ∧ (∀ k v w o w1 t asynchronous input w2,
       (k, v) ∈ TOOLS → call v w = (Return o, w1) → t ∈ tools_of o →
       ∃ l, calls (tool_run asynchronous t input w2).2 = calls w2 ++ l
            ∧ upload_file_to_wasabi_fn ∉ l)
  ∧ (∀ asynchronous t input w,
       ∃ l, calls (tool_run asynchronous t input w).2 = calls w ++ l
            ∧ upload_file_to_wasabi_fn ∉ l).
Proof.
  assert (∀ asynchronous t input w,
            ∃ l, calls (tool_run asynchronous t input w).2 = calls w ++ l
                 ∧ upload_file_to_wasabi_fn ∉ l) as Hrun.
  { intros asynchronous t input w. exists (entered_by t input).
    split; [apply tool_run_calls|]. destruct t, input; not_in_list. }
  split_and!; [done| | | |done].
  - intros file_name w. unfold UploadCSV._run, UploadCSV._arun.
    rewrite upload_file_to_s3_calls, upload_file_to_wasabi_calls. done.
  - intros k v w _. exists (entered_by_call v).
    split; [apply call_calls|]. destruct v; not_in_list.
  - intros. apply Hrun.
Qed.

Lemma upload_tool_uses_s3_not_wasabi_witness :
  let w := quiet_world ∅ ∅ in
  ∃ l, calls (tool_run true UploadCSV_tool (UploadCSVInput "plan.csv") w).2
       = calls w ++ l
       ∧ upload_file_to_wasabi_fn ∉ l.
Proof.
  intros w.
  apply (proj1 (proj2 (proj2 (proj2 upload_tool_uses_s3_not_wasabi)))
           UPLOAD_CSV UploadCSV_cls w (PyTool UploadCSV_tool)
           (set_calls [UploadCSV_cls] w) UploadCSV_tool true
           (UploadCSVInput "plan.csv") w).
  - unfold TOOLS. rewrite !elem_of_cons. auto.
  - done.
  - by apply list_elem_of_singleton.
Defined.

(** Looking up the value of a registered member finds its factory; any
    other identifier is a miss. *)
Lemma TOOLS_getitem_run (identifier : string) (w : World) :
  TOOLS_getitem identifier w
  = if bool_decide (identifier = value CONNERY)
    then (Return get_connery_actions_fn, w)
    else if bool_decide (identifier = value CREATE_CSV)
    then (Return CreateCSV_cls, w)
    else if bool_decide (identifier = value UPLOAD_CSV)
    then (Return UploadCSV_cls, w)
    else if bool_decide (identifier = value GET_ALL_FILES)
    then (Return get_all_files_in_data_folder_fn, w)
    else (Raise (KeyError identifier), w).
Proof.
  unfold TOOLS_getitem, TOOLS. cbn [list_find fst snd].
  destruct (decide (value CONNERY = identifier)) as [<-|?]; [done|].
  rewrite (bool_decide_false (identifier = value CONNERY)) by congruence.
  destruct (decide (value CREATE_CSV = identifier)) as [<-|?]; [done|].
  rewrite (bool_decide_false (identifier = value CREATE_CSV)) by congruence.
  destruct (decide (value UPLOAD_CSV = identifier)) as [<-|?]; [done|].
  rewrite (bool_decide_false (identifier = value UPLOAD_CSV)) by congruence.
  destruct (decide (value GET_ALL_FILES = identifier)) as [<-|?]; [done|].
  by rewrite (bool_decide_false (identifier = value GET_ALL_FILES))
    by congruence.
Qed.

(** C8 (amended).  Every member of [AvailableTools] other than [RETRIEVAL]
    has exactly one factory in [TOOLS] and [RETRIEVAL] has none; indexing
    [TOOLS] by the value of a registered member gives its factory, and
    indexing it by any other identifier raises [KeyError] and leaves the
    world as it was: nothing is called, read or written. *)
Theorem registry_covers_all_members_but_retrieval :
  (∀ k, k ≠ RETRIEVAL → ∃ v, factories_of TOOLS k = [v])
  ∧ factories_of TOOLS RETRIEVAL = []
  ∧ (∀ k v w, (k, v) ∈ TOOLS → TOOLS_getitem (value k) w = (Return v, w))
  ∧ (∀ identifier w,
       (∀ k v, (k, v) ∈ TOOLS → value k ≠ identifier) →
       TOOLS_getitem identifier w = (Raise (KeyError identifier), w)).
Proof.
  split_and!.
  - intros [] Hk; [by eexists|done|by eexists..].
  - done.
  - intros k v w Hin. unfold TOOLS in Hin.
    repeat (apply elem_of_cons in Hin as [[= -> ->]|Hin]; [done|]).
    by apply elem_of_nil in Hin.
  - intros identifier w Hmiss. rewrite TOOLS_getitem_run.
    repeat (rewrite bool_decide_false;
            [|intros ->; eapply Hmiss; [|done]; unfold TOOLS;
              rewrite !elem_of_cons; eauto 8]).
    done.
Qed.

Lemma registry_covers_all_members_but_retrieval_witness :
  TOOLS_getitem "Python REPL" (quiet_world ∅ ∅)
  = (Raise (KeyError "Python REPL"), quiet_world ∅ ∅).
Proof.
  apply registry_covers_all_members_but_retrieval.
  intros k v Hin. unfold TOOLS in Hin.
  repeat (apply elem_of_cons in Hin as [[= -> ->]|Hin]; [done|]).
  by apply elem_of_nil in Hin.
Defined.

(** C8 as stated fails: [RETRIEVAL] is a member of the enumeration and has
    no factory in [TOOLS]. *)
Lemma retrieval_has_no_factory :
  ¬ (∀ k, k ∈ members → ∃ v, factories_of TOOLS k = [v]).
Proof.
  intros Hclaim. destruct (Hclaim RETRIEVAL) as [v Hv]; [|done].
  unfold members. rewrite !elem_of_cons. auto.
Qed.

(** ** The start-up loop *)

Lemma check_tools_cons k v rest w :
  check_tools ((k, v) :: rest) w
  = if bool_decide (k ≠ CONNERY)
    then match call v w with
         | (Return _, w1) => check_tools rest w1
         | (Raise e, w1) => (Raise e, w1)
         end
    else check_tools rest w.
Proof.
  unfold check_tools. cbn [for_each fst snd]. rewrite run_bind.
  destruct (bool_decide (k ≠ CONNERY)); [|done].
  rewrite run_bind. by destruct (call v w) as [[o|e] w1].
Qed.

Lemma check_tools_app pre post w :
  check_tools (pre ++ post) w
  = match check_tools pre w with
    | (Return _, w1) => check_tools post w1
    | (Raise e, w1) => (Raise e, w1)
    end.
Proof.
  revert w. induction pre as [|[k v] pre IH]; intros w; [done|].
  rewrite <-app_comm_cons, !check_tools_cons.
  destruct (bool_decide (k ≠ CONNERY)); [|apply IH].
  destruct (call v w) as [[o|e] w1]; [apply IH|done].
Qed.

Lemma check_tools_returns_calls tools : ∀ w w',
  check_tools tools w = (Return tt, w') →
  calls w' = calls w ++ (snd <$> checked tools).
Proof.
  induction tools as [|[k v] tools IH]; intros w w' Hrun.
  { injection Hrun as <-. by rewrite app_nil_r. }
  rewrite check_tools_cons in Hrun. unfold checked. rewrite filter_cons.
  cbn [fst]. destruct (decide (k ≠ CONNERY)) as [Hk|Hk].
  - rewrite bool_decide_true in Hrun by done.
    destruct (call v w) as [[o|e] w1] eqn:Hcall; [|done].
    apply call_returns_calls in Hcall. apply IH in Hrun.
    rewrite Hrun, Hcall. cbn [fmap list_fmap snd]. by rewrite <-app_assoc.
  - rewrite bool_decide_false in Hrun by done. by apply IH.
Qed.

Lemma module_startup_run (w : World) :
  module_startup w
  = let w' := set_calls (calls w ++ [CreateCSV_cls; UploadCSV_cls;
                                     get_all_files_in_data_folder_fn]) w in
    match disk w !! "data" with
    | Some Dir => (Return tt, w')
    | Some (File _) => (Raise (NotADirectoryError "data"), w')
    | None => (Raise (FileNotFoundError "data"), w')
    end.
Proof.
  unfold module_startup, TOOLS. rewrite check_tools_cons.
  rewrite bool_decide_false by (by intros []).
  do 2 (rewrite check_tools_cons, bool_decide_true by done;
        cbn [call]; rewrite !run_bind; cbn [enter mret M_ret]).
  rewrite check_tools_cons, bool_decide_true by done.
  cbn [call]. rewrite run_bind, get_all_files_in_data_folder_run. cbv zeta.
  cbn [disk calls set_calls].
  destruct (disk w !! "data") as [[c|]|]; cbn; rewrite <-!app_assoc; done.
Qed.

(** Without a cached result, [_get_connery_actions] checks its two
    environment variables when it is called. *)
Lemma get_connery_actions_missing_config (w : World) :
  connery_cache w = None →
  environ w !! "CONNERY_RUNNER_URL" = None
  ∨ environ w !! "CONNERY_RUNNER_API_KEY" = None →
  (call get_connery_actions_fn w).1
  = Raise (ValueError "Did not find runner_url or api_key").
Proof.
  intros Hcache Hmissing. cbn [call]. rewrite run_bind.
  unfold _get_connery_actions. rewrite run_bind. cbn [enter].
  rewrite run_bind. unfold cache_get. cbn [connery_cache set_calls].
  rewrite Hcache. rewrite run_bind. unfold os_environ_get at 1.
  rewrite run_bind. unfold os_environ_get at 1. rewrite run_bind.
  cbn [environ set_calls]. unfold ConneryService.
  destruct Hmissing as [-> | ->]; [done|].
  by destruct (environ w !! "CONNERY_RUNNER_URL").
Qed.

(** C9.  Over any registry the loop calls the factory of every entry that
    is not under [CONNERY], once each and in registry order, when none of
    them raises; the first factory that raises ends the loop with its
    exception, in the world that factory left, so that no later factory is
    called and none is called again.  Of [TOOLS] exactly the Connery entry
    is skipped; its configuration is checked when its factory is called. *)
Theorem startup_check_calls_each_factory_once :
  (∀ tools w w',
     check_tools tools w = (Return tt, w') →
     calls w' = calls w ++ (snd <$> checked tools))
  ∧ (∀ pre k v post w w1 e w2,
       check_tools pre w = (Return tt, w1) → k ≠ CONNERY →
       call v w1 = (Raise e, w2) →
       check_tools (pre ++ (k, v) :: post) w = (Raise e, w2))
  ∧ TOOLS = (CONNERY, get_connery_actions_fn) :: checked TOOLS
  ∧ snd <$> checked TOOLS
    = [CreateCSV_cls; UploadCSV_cls; get_all_files_in_data_folder_fn]
  ∧ (∀ w, ∃ w',
       calls w' = calls w ++ [CreateCSV_cls; UploadCSV_cls;
                              get_all_files_in_data_folder_fn]
       ∧ module_startup w
         = (match disk w !! "data" with
            | Some Dir => Return tt
            | Some (File _) => Raise (NotADirectoryError "data")
            | None => Raise (FileNotFoundError "data")
            end, w'))
  ∧ (∀ w, connery_cache w = None →
       environ w !! "CONNERY_RUNNER_URL" = None
       ∨ environ w !! "CONNERY_RUNNER_API_KEY" = None →
       (call get_connery_actions_fn w).1
       = Raise (ValueError "Did not find runner_url or api_key")).
Proof.
  split_and!.
  - apply check_tools_returns_calls.
  - intros pre k v post w w1 e w2 Hpre Hk Hcall.
    rewrite check_tools_app, Hpre, check_tools_cons.
    by rewrite bool_decide_true, Hcall.
  - done.
  - done.
  - intros w. rewrite module_startup_run. cbv zeta. eexists. split; [|by
      destruct (disk w !! "data") as [[c|]|]]. done.
  - apply get_connery_actions_missing_config.
Qed.

Lemma startup_check_calls_each_factory_once_witness :
  let w := quiet_world ∅ ∅ in
  check_tools ([] ++ (GET_ALL_FILES, get_all_files_in_data_folder_fn)
                  :: [(CREATE_CSV, CreateCSV_cls)]) w
  = (Raise (FileNotFoundError "data"),
     set_calls [get_all_files_in_data_folder_fn] w).
Proof.
  intros w.
  apply (proj1 (proj2 startup_check_calls_each_factory_once)
           [] GET_ALL_FILES get_all_files_in_data_folder_fn
           [(CREATE_CSV, CreateCSV_cls)] w w); done.
Defined.

(** C1 (amended).  The start-up loop never calls the Connery factory: it
    enters no [_get_connery_actions], leaves its cache as it was, and its
    outcome is the same whatever the environment holds; it returns
    whenever the data directory exists.  A missing runner URL or API key
    is reported only when the Connery factory is called. *)
Theorem startup_check_skips_connery :
  (∀ w, ∃ l, calls (module_startup w).2 = calls w ++ l
             ∧ get_connery_actions_fn ∉ l)
  ∧ (∀ w, connery_cache (module_startup w).2 = connery_cache w)
  ∧ (∀ w env, (module_startup (set_environ env w)).1 = (module_startup w).1)
  ∧ (∀ w, disk w !! "data" = Some Dir → (module_startup w).1 = Return tt)
  ∧ (∀ w, connery_cache w = None →
       environ w !! "CONNERY_RUNNER_URL" = None
       ∨ environ w !! "CONNERY_RUNNER_API_KEY" = None →
       (call get_connery_actions_fn w).1
       = Raise (ValueError "Did not find runner_url or api_key")).
Proof.
  split_and!.
  - intros w. rewrite module_startup_run. cbv zeta. eexists. split.
    + by destruct (disk w !! "data") as [[c|]|].
    + not_in_list.
  - intros w. rewrite module_startup_run. cbv zeta.
    by destruct (disk w !! "data") as [[c|]|].
  - intros w env. rewrite !module_startup_run. cbv zeta.
    cbn [disk set_environ]. by destruct (disk w !! "data") as [[c|]|].
  - intros w Hdata. rewrite module_startup_run. cbv zeta. by rewrite Hdata.
  - apply get_connery_actions_missing_config.
Qed.

Lemma startup_check_skips_connery_witness :
  let w := quiet_world ∅ {["data" := Dir]} in
  (module_startup w).1 = Return tt.
Proof.
  intros w.
  by apply (proj1 (proj2 (proj2 (proj2 startup_check_skips_connery))) w).
Defined.

(** C1 as stated fails: with no Connery API key (and no runner URL) in the
    environment the start-up loop returns, although calling the Connery
    factory in that world raises. *)
Lemma startup_returns_without_connery_key :
  let w := quiet_world ∅ {["data" := Dir]} in
  environ w !! "CONNERY_RUNNER_API_KEY" = None
  ∧ (module_startup w).1 = Return tt
  ∧ (call get_connery_actions_fn w).1
    = Raise (ValueError "Did not find runner_url or api_key").
Proof. by vm_compute. Qed.

(** ** The retrieval tool factory *)

Lemma cache_lookup_cons {K V} `{EqDecision K} (k k' : K) (v : V) l :
  cache_lookup k ((k', v) :: l)
  = if decide (k' = k) then Some v else cache_lookup k l.
Proof.
  unfold cache_lookup. cbn [list_find fst].
  destruct (decide (k' = k)); [done|].
  by destruct (list_find _ l) as [[i [k0 v0]]|].
Qed.

Lemma cache_lookup_Some {K V} `{EqDecision K} (k : K) (v : V) l :
  cache_lookup k l = Some v → (k, v) ∈ l.
Proof.
  induction l as [|[k' v'] l IH]; [done|]. rewrite cache_lookup_cons.
  destruct (decide (k' = k)) as [->|].
  - intros [= ->]. apply elem_of_cons. by left.
  - intros H. apply elem_of_cons. right. by apply IH.
Qed.

Lemma cache_lookup_None {K V} `{EqDecision K} (k : K) (l : list (K * V)) :
  cache_lookup k l = None → k ∉ l.*1.
Proof.
  induction l as [|[k' v'] l IH]; [intros _; apply not_elem_of_nil|].
  rewrite cache_lookup_cons. destruct (decide (k' = k)); [done|].
  intros H. cbn [fmap list_fmap fst]. apply not_elem_of_cons. split; [done|].
  by apply IH.
Qed.

Lemma cache_lookup_NoDup {K V} `{EqDecision K} (k : K) (v : V) l :
  NoDup l.*1 → (k, v) ∈ l → cache_lookup k l = Some v.
Proof.
  induction l as [|[k' v'] l IH]; [by intros _ ?%elem_of_nil|].
  cbn [fmap list_fmap fst]. intros [Hk Hl]%NoDup_cons.
  rewrite cache_lookup_cons. intros [[= <- <-]|Hin]%elem_of_cons.
  - by rewrite decide_True.
  - rewrite decide_False; [by apply IH|].
    intros ->. apply Hk. apply list_elem_of_fmap. by exists (k, v).
Qed.

Lemma get_retrieval_tool_hit a d (m : RMemo) t :
  cache_lookup (a, d) (entries m) = Some t →
  get_retrieval_tool a d m
  = (t, mkMemo (((a, d), t) :: cache_remove (a, d) (entries m))
               (next_address m)).
Proof. intros H. unfold get_retrieval_tool, lru_cache. by rewrite H. Qed.

Lemma get_retrieval_tool_miss a d (m : RMemo) :
  cache_lookup (a, d) (entries m) = None →
  get_retrieval_tool a d m
  = (tool_for (a, d) (next_address m),
     mkMemo (if bool_decide (5 ≤ length (entries m))
             then ((a, d), tool_for (a, d) (next_address m))
                  :: removelast (entries m)
             else ((a, d), tool_for (a, d) (next_address m)) :: entries m)
            (S (next_address m))).
Proof. intros H. unfold get_retrieval_tool, lru_cache. by rewrite H. Qed.

(** After a call the key is the most recently used entry. *)
Lemma get_retrieval_tool_front a d (m : RMemo) :
  ∃ rest, entries (get_retrieval_tool a d m).2
          = ((a, d), (get_retrieval_tool a d m).1) :: rest.
Proof.
  destruct (cache_lookup (a, d) (entries m)) as [t|] eqn:H.
  - rewrite (get_retrieval_tool_hit a d m t) by done. by eexists.
  - rewrite get_retrieval_tool_miss by done. cbn [fst snd entries].
    destruct (bool_decide _); by eexists.
Qed.

(** *** What holds of every state the factory reaches *)

Lemma removelast_elem_of {A} (x : A) (l : list A) :
  x ∈ removelast l → x ∈ l.
Proof.
  induction l as [|y [|z l] IH]; [done|by intros ?%elem_of_nil|].
  change (removelast (y :: z :: l)) with (y :: removelast (z :: l)).
  rewrite !(elem_of_cons _ x y). intros [->|H]; [by left|right; by apply IH].
Qed.

Lemma removelast_length {A} (l : list A) :
  length (removelast l) = length l - 1.
Proof.
  induction l as [|y [|z l] IH]; [done..|].
  change (removelast (y :: z :: l)) with (y :: removelast (z :: l)).
  cbn [length] in *. lia.
Qed.

Lemma removelast_NoDup_keys {K V} (l : list (K * V)) :
  NoDup l.*1 → NoDup (removelast l).*1.
Proof.
  induction l as [|y [|z l] IH]; [done|intros _; constructor|].
  change (removelast (y :: z :: l)) with (y :: removelast (z :: l)).
  rewrite !(fmap_cons fst y). intros [Hy Hl]%NoDup_cons.
  apply NoDup_cons. split; [|by apply IH].
  intros (kv & Hk & Hin%removelast_elem_of)%list_elem_of_fmap.
  apply Hy, list_elem_of_fmap. eauto.
Qed.

Lemma cache_remove_elem_of {K V} `{EqDecision K} (k : K) (l : list (K * V)) x :
  x ∈ cache_remove k l ↔ x.1 ≠ k ∧ x ∈ l.
Proof. unfold cache_remove. by rewrite list_elem_of_filter. Qed.

Lemma cache_remove_NoDup {K V} `{EqDecision K} (k : K) (l : list (K * V)) :
  NoDup l.*1 → NoDup (cache_remove k l).*1.
Proof.
  induction l as [|y l IH]; [done|]. rewrite fmap_cons.
  intros [Hy Hl]%NoDup_cons. unfold cache_remove. rewrite filter_cons.
  destruct (decide (y.1 ≠ k)); [|by apply IH].
  rewrite fmap_cons. apply NoDup_cons. split; [|by apply IH].
  intros (kv & Hk & [_ Hin]%cache_remove_elem_of)%list_elem_of_fmap.
  apply Hy, list_elem_of_fmap. eauto.
Qed.

Lemma cache_remove_length {K V} `{EqDecision K} (k : K) (v : V) l :
  (k, v) ∈ l → S (length (cache_remove k l)) ≤ length l.
Proof.
  induction l as [|y l IH]; [by intros ?%elem_of_nil|].
  unfold cache_remove in *. rewrite filter_cons. intros Hin.
  destruct (decide (y.1 ≠ k)) as [Hne|Heq]; cbn [length].
  - apply elem_of_cons in Hin as [<-|Hin]; [by destruct Hne|].
    specialize (IH Hin). lia.
  - pose proof (length_filter (λ kv : K * V, kv.1 ≠ k) l). lia.
Qed.

Lemma memo_inv_fresh : memo_inv [] fresh_memo.
Proof.
  split_and!; [done|done| |constructor|cbn; lia].
  by intros k t ?%elem_of_nil.
Qed.

(** One call keeps the invariant; the tool returned is in the log and is
    the tool of its key. *)
Lemma memo_inv_step log (m : RMemo) a d :
  memo_inv log m →
  ∃ log', memo_inv log' (get_retrieval_tool a d m).2
          ∧ log `prefix_of` log'
          ∧ (get_retrieval_tool a d m).1 ∈ log'
          ∧ (get_retrieval_tool a d m).1
            = tool_for (a, d) (address (get_retrieval_tool a d m).1).
Proof.
  intros (Hnext & Haddr & Hentries & Hkeys & Hlen).
  destruct (cache_lookup (a, d) (entries m)) as [t|] eqn:Hlookup.
  - rewrite (get_retrieval_tool_hit a d m t) by done. cbn [fst snd].
    apply cache_lookup_Some in Hlookup as Hin.
    destruct (Hentries _ _ Hin) as [Hlog Htool].
    exists log. split_and!; [|done..].
    split_and!; cbn [entries next_address]; [done..| | |].
    + intros k t' [[= -> ->]|[_ Hin']%cache_remove_elem_of]%elem_of_cons;
        by apply Hentries.
    + rewrite fmap_cons. apply NoDup_cons. split; [|by apply cache_remove_NoDup].
      intros (kv & Hk & [Hne _]%cache_remove_elem_of)%list_elem_of_fmap.
      by apply Hne.
    + cbn [length]. pose proof (cache_remove_length _ _ _ Hin). lia.
  - rewrite get_retrieval_tool_miss by done. cbn [fst snd].
    set (t := tool_for (a, d) (next_address m)).
    exists (log ++ [t]).
    assert (t ∈ log ++ [t]) as Ht by (apply elem_of_app; right; by left).
    split_and!; [|by apply prefix_app_r|done|done].
    split_and!; cbn [entries next_address].
    + rewrite length_app. cbn [length]. lia.
    + intros i t' [Hi|[Hle [Hi0 <-]%list_lookup_singleton_Some]]%lookup_app_Some;
        [by apply Haddr|].
      subst t. cbn [address tool_for]. lia.
    + assert (∀ k t', (k, t') ∈ ((a, d), t) :: entries m →
                t' ∈ log ++ [t] ∧ t' = tool_for k (address t')) as Hall.
      { intros k t' [[= -> ->]|Hin]%elem_of_cons; [done|].
        destruct (Hentries _ _ Hin). split; [|done].
        apply elem_of_app. by left. }
      intros k t' Hin. apply Hall.
      destruct (bool_decide _); [|done].
      apply elem_of_cons in Hin as [->|Hin%removelast_elem_of];
        apply elem_of_cons; auto.
    + apply cache_lookup_None in Hlookup.
      destruct (bool_decide _); rewrite fmap_cons; apply NoDup_cons;
        (split; [|by try apply removelast_NoDup_keys]); [|done].
      intros (kv & Hk & Hin%removelast_elem_of)%list_elem_of_fmap.
      apply Hlookup, list_elem_of_fmap. eauto.
    + case_bool_decide; cbn [length]; rewrite ?removelast_length; lia.
Qed.

Lemma memo_inv_calls keys : ∀ log (m : RMemo),
  memo_inv log m →
  ∃ log', memo_inv log' (calls_from keys m).2
          ∧ log `prefix_of` log'
          ∧ ∀ t, t ∈ (calls_from keys m).1 → t ∈ log'.
Proof.
  induction keys as [|[a d] keys IH]; intros log m Hinv.
  { exists log. split_and!; [done..|]. by intros t ?%elem_of_nil. }
  cbn [calls_from fst snd].
  destruct (memo_inv_step log m a d Hinv) as (log1 & Hinv1 & Hpre1 & Hin1 & _).
  destruct (get_retrieval_tool a d m) as [t1 m1]. cbn [fst snd] in *.
  destruct (IH log1 m1 Hinv1) as (log2 & Hinv2 & Hpre2 & Hin2).
  destruct (calls_from keys m1) as [ts m2]. cbn [fst snd] in *.
  exists log2. split_and!; [done|by etrans|].
  intros t [->|Hin]%elem_of_cons; [|by apply Hin2].
  destruct Hpre2 as [l ->]. apply elem_of_app. by left.
Qed.

Lemma reachable_inv (m : RMemo) : reachable m → ∃ log, memo_inv log m.
Proof.
  intros [keys <-].
  destruct (memo_inv_calls keys [] fresh_memo memo_inv_fresh)
    as (log & Hinv & _). eauto.
Qed.

(** *** Least recently used: an entry survives four other keys *)

Lemma NoDup_length_le_size (l : list (string * string))
    (X : gset (string * string)) :
  NoDup l → (∀ x, x ∈ l → x ∈ X) → length l ≤ size X.
Proof.
  intros Hl Hsub. rewrite <-(size_list_to_set (C:=gset (string * string)) l)
    by done.
  apply subseteq_size. intros x Hx%elem_of_list_to_set. by apply Hsub.
Qed.

Lemma removelast_middle {A} (front back : list A) (x : A) :
  back ≠ [] →
  removelast (front ++ x :: back) = front ++ x :: removelast back.
Proof.
  intros Hback. rewrite List.removelast_app by done. by destruct back.
Qed.

Lemma within_step X key t log (m : RMemo) a d :
  memo_inv log m → size X ≤ 4 → within X key t m →
  (a, d) = key ∨ (a, d) ∈ X →
  within X key t (get_retrieval_tool a d m).2
  ∧ ((a, d) = key → (get_retrieval_tool a d m).1 = t).
Proof.
  intros (_ & _ & _ & Hkeys & _) HX (front & back & Hm & Hfront) Hcall.
  assert ((key, t) ∈ entries m) as Hin.
  { rewrite Hm. apply elem_of_app. right. by left. }
  destruct (cache_lookup (a, d) (entries m)) as [t'|] eqn:Hlookup.
  - rewrite (get_retrieval_tool_hit a d m t') by done. cbn [fst snd entries].
    destruct (decide ((a, d) = key)) as [Heq|Hne].
    + subst key.
      rewrite (cache_lookup_NoDup (a, d) t (entries m)) in Hlookup by done.
      injection Hlookup as <-. split; [|done].
      exists [], (cache_remove (a, d) (entries m)). split; [done|].
      by intros x ?%elem_of_nil.
    + split; [|done]. destruct Hcall as [?|HinX]; [done|].
      exists (((a, d), t') :: cache_remove (a, d) front),
             (cache_remove (a, d) back).
      split.
      * rewrite Hm. unfold cache_remove. rewrite filter_app, filter_cons.
        by rewrite decide_True by (cbn; congruence).
      * rewrite fmap_cons. intros x [->|Hx]%elem_of_cons; [done|].
        apply Hfront. apply list_elem_of_fmap in Hx as (kv & -> & Hkv).
        apply cache_remove_elem_of in Hkv as [_ Hkv].
        by apply list_elem_of_fmap_2.
  - rewrite get_retrieval_tool_miss by done. cbn [fst snd entries].
    apply cache_lookup_None in Hlookup.
    assert ((a, d) ≠ key) as Hne.
    { intros Heq. subst key. apply Hlookup.
      by apply (list_elem_of_fmap_2 fst _ ((a, d), t)). }
    split; [|done]. destruct Hcall as [?|HinX]; [done|].
    set (t' := tool_for (a, d) (next_address m)).
    case_bool_decide as Hfull.
    + assert (back ≠ []) as Hback.
      { intros ->.
        assert (length ((a, d) :: front.*1) ≤ size X) as Hlen.
        { apply NoDup_length_le_size.
          - apply NoDup_cons. split.
            + intros Hx. apply Hlookup. rewrite Hm, fmap_app.
              apply elem_of_app. by left.
            + rewrite Hm, fmap_app in Hkeys. by apply NoDup_app in Hkeys as [? _].
          - intros x [->|Hx]%elem_of_cons; [done|by apply Hfront]. }
        rewrite Hm, length_app in Hfull. cbn [length] in *.
        rewrite length_fmap in Hlen. lia. }
      exists (((a, d), t') :: front), (removelast back). split.
      * by rewrite Hm, removelast_middle.
      * rewrite fmap_cons. intros x [->|Hx]%elem_of_cons; [done|by apply Hfront].
    + exists (((a, d), t') :: front), back. split; [by rewrite Hm|].
      rewrite fmap_cons. intros x [->|Hx]%elem_of_cons; [done|by apply Hfront].
Qed.

Lemma within_calls X key t others : ∀ log (m : RMemo),
  memo_inv log m → size X ≤ 4 → within X key t m →
  (∀ k, k ∈ others → k = key ∨ k ∈ X) →
  ∃ log', memo_inv log' (calls_from others m).2
          ∧ within X key t (calls_from others m).2.
Proof.
  induction others as [|[a d] others IH]; intros log m Hinv HX Hwithin Hothers.
  { by exists log. }
  cbn [calls_from fst snd].
  destruct (memo_inv_step log m a d Hinv) as (log1 & Hinv1 & _).
  destruct (within_step X key t log m a d Hinv HX Hwithin) as [Hwithin1 _].
  { apply Hothers. by left. }
  destruct (get_retrieval_tool a d m) as [t1 m1]. cbn [fst snd] in *.
  destruct (IH log1 m1 Hinv1 HX Hwithin1) as (log2 & Hinv2 & Hwithin2).
  { intros k Hk. apply Hothers. by right. }
  destruct (calls_from others m1) as [ts m2]. by exists log2.
Qed.

Lemma get_retrieval_tool_survives (m : RMemo) a d others :
  reachable m → size (other_keys (a, d) others) ≤ 4 →
  (get_retrieval_tool a d (calls_from others (get_retrieval_tool a d m).2).2).1
  = (get_retrieval_tool a d m).1.
Proof.
  intros [log Hinv]%reachable_inv Hsize.
  destruct (memo_inv_step log m a d Hinv) as (log1 & Hinv1 & _).
  destruct (get_retrieval_tool_front a d m) as [rest Hfront].
  destruct (get_retrieval_tool a d m) as [t1 m1]. cbn [fst snd] in *.
  destruct (within_calls (other_keys (a, d) others) (a, d) t1 others log1 m1)
    as (log2 & Hinv2 & Hwithin2); [done|done| |  |].
  { exists [], rest. split; [done|]. by intros x ?%elem_of_nil. }
  { intros k Hk. destruct (decide (k = (a, d))) as [|Hne]; [by left|right].
    apply elem_of_list_to_set, list_elem_of_filter. done. }
  by apply (within_step (other_keys (a, d) others) (a, d) t1 log2 _ a d);
    [..|left|].
Qed.

Lemma get_retrieval_tool_distinct (m : RMemo) a1 d1 others a2 d2 :
  reachable m → a1 ≠ a2 →
  let t1 := (get_retrieval_tool a1 d1 m).1 in
  let t2 := (get_retrieval_tool a2 d2
               (calls_from others (get_retrieval_tool a1 d1 m).2).2).1 in
  address t1 ≠ address t2
  ∧ retriever t1 = get_retriever a1
  ∧ retriever t2 = get_retriever a2.
Proof.
  intros [log Hinv]%reachable_inv Ha.
  destruct (memo_inv_step log m a1 d1 Hinv) as (log1 & Hinv1 & _ & Hin1 & Ht1).
  destruct (get_retrieval_tool a1 d1 m) as [t1 m1]. cbn [fst snd] in *.
  destruct (memo_inv_calls others log1 m1 Hinv1) as (log2 & Hinv2 & Hpre2 & _).
  destruct (calls_from others m1) as [ts m2]. cbn [fst snd] in *.
  destruct (memo_inv_step log2 m2 a2 d2 Hinv2)
    as (log3 & Hinv3 & Hpre3 & Hin3 & Ht3).
  destruct (get_retrieval_tool a2 d2 m2) as [t2 m3]. cbn [fst snd] in *.
  cbv zeta. split_and!; [|by rewrite Ht1|by rewrite Ht3].
  intros Haddr.
  assert (t1 ∈ log3) as Hin1'.
  { destruct Hpre2 as [l2 ->], Hpre3 as [l3 ->].
    apply elem_of_app; left. apply elem_of_app; by left. }
  destruct Hinv3 as (_ & Hlog & _).
  apply list_elem_of_lookup in Hin1' as [i1 Hi1], Hin3 as [i2 Hi2].
  pose proof (Hlog _ _ Hi1). pose proof (Hlog _ _ Hi2).
  assert (t1 = t2) as Heq by congruence.
  rewrite Ht1, Ht3 in Heq. by injection Heq.
Qed.

(** C5.  [get_retrieval_tool] is memoised on the pair (assistant id,
    description): a call whose key is cached returns the cached instance
    and builds nothing; calling twice in a row returns the same instance;
    the cache of a reachable state never holds more than five entries; an
    entry survives calls with up to four other keys (least recently used
    goes first); and calls with different assistant ids return tools at
    different addresses, each filtering on the namespace of its own
    assistant. *)
Theorem get_retrieval_tool_memoised :
  (∀ (m : RMemo) a d t,
     cache_lookup (a, d) (entries m) = Some t →
     (get_retrieval_tool a d m).1 = t
     ∧ next_address (get_retrieval_tool a d m).2 = next_address m)
  ∧ (∀ (m : RMemo) a d,
       (get_retrieval_tool a d (get_retrieval_tool a d m).2).1
       = (get_retrieval_tool a d m).1)
  ∧ (∀ m : RMemo, reachable m → length (entries m) ≤ 5)
  ∧ (∀ (m : RMemo) a d others,
       reachable m → size (other_keys (a, d) others) ≤ 4 →
       (get_retrieval_tool a d
          (calls_from others (get_retrieval_tool a d m).2).2).1
       = (get_retrieval_tool a d m).1)
  ∧ (∀ (m : RMemo) a1 d1 others a2 d2,
       reachable m → a1 ≠ a2 →
       let t1 := (get_retrieval_tool a1 d1 m).1 in
       let t2 := (get_retrieval_tool a2 d2
                    (calls_from others (get_retrieval_tool a1 d1 m).2).2).1 in
       address t1 ≠ address t2
       ∧ search_filter (retriever t1) = mkTagFilter "namespace" a1
       ∧ search_filter (retriever t2) = mkTagFilter "namespace" a2).
Proof.
  split_and!.
  - intros m a d t Hlookup. by rewrite (get_retrieval_tool_hit a d m t).
  - intros m a d. destruct (get_retrieval_tool_front a d m) as [rest Hfront].
    destruct (get_retrieval_tool a d m) as [t1 m1]. cbn [fst snd] in *.
    rewrite (get_retrieval_tool_hit a d m1 t1); [done|].
    by rewrite Hfront, cache_lookup_cons, decide_True.
  - intros m [log Hinv]%reachable_inv. apply Hinv.
  - apply get_retrieval_tool_survives.
  - intros m a1 d1 others a2 d2 Hm Ha.
    destruct (get_retrieval_tool_distinct m a1 d1 others a2 d2 Hm Ha)
      as (Haddr & Hr1 & Hr2).
    cbv zeta. by rewrite Hr1, Hr2.
Qed.

Lemma get_retrieval_tool_memoised_witness :
  let others := [("b", "x"); ("c", "x"); ("a", "y"); ("b", "x"); ("d", "x")] in
  (get_retrieval_tool "a" "x"
     (calls_from others (get_retrieval_tool "a" "x" fresh_memo).2).2).1
  = (get_retrieval_tool "a" "x" fresh_memo).1.
Proof.
  intros others.
  apply (proj1 (proj2 (proj2 (proj2 get_retrieval_tool_memoised)))).
  - by exists [].
  - by vm_compute.
Defined.

(** Five other keys evict the entry: the next call builds a new tool. *)
Example get_retrieval_tool_evicted :
  let others := [("b", "x"); ("c", "x"); ("d", "x"); ("e", "x"); ("f", "x")] in
  address (get_retrieval_tool "a" "x" fresh_memo).1 = 0
  ∧ address (get_retrieval_tool "a" "x"
               (calls_from others (get_retrieval_tool "a" "x" fresh_memo).2).2).1
    = 6.
Proof. by vm_compute. Qed.


(** * Further properties of the module *)

(** ** Uploads: what changes, and what a missing credential does *)

Lemma upload_with_no_credentials (b : Backend) (file_name : string) (w : World) :
  environ w !! access_key_var b = None
  ∨ environ w !! secret_key_var b = None →
  ∃ var l,
    upload_with b file_name w = (Raise (KeyError var), set_calls l w)
    ∧ (var = access_key_var b ∨ var = secret_key_var b)
    ∧ environ w !! var = None.
Proof.
  intros Hmissing.
  destruct b; cbn [upload_with access_key_var secret_key_var] in *.
  - rewrite upload_file_to_wasabi_run. cbv zeta.
    destruct (environ w !! "WASABI_ACCESS_KEY") eqn:Ha;
      [destruct Hmissing as [?|Hs]; [done|rewrite Hs]|]; eauto 10.
  - rewrite upload_file_to_s3_run. cbv zeta.
    destruct (environ w !! "AWS_ACCESS_KEY_ID") eqn:Ha;
      [destruct Hmissing as [?|Hs]; [done|rewrite Hs]|]; eauto 10.
Qed.

(** Every outcome of an upload, with what it leaves behind. *)
Lemma upload_with_effects (b : Backend) (file_name : string) (w : World) :
  let r := upload_with b file_name w in
  let key := os_path_basename file_name in
  disk r.2 = disk w ∧ environ r.2 = environ w
  ∧ connery_cache r.2 = connery_cache w
  ∧ match r.1 with
    | Return (Some url) =>
        url = public_url bucket_name (host_of b) key
        ∧ stdout r.2 = stdout w
        ∧ ∃ body,
            disk w !! os_path_join "data" file_name = Some (File body)
            ∧ buckets r.2
              = <[("https://" +:+ host_of b, bucket_name, key)
                  := mkS3Object body "public-read"]> (buckets w)
    | Return None =>
        buckets r.2 = buckets w ∧ ∃ line, stdout r.2 = stdout w ++ [line]
    | Raise e => buckets r.2 = buckets w ∧ stdout r.2 = stdout w
    end.
Proof.
  cbv zeta.
  destruct (environ w !! access_key_var b) as [access_key|] eqn:Ha;
    [destruct (environ w !! secret_key_var b) as [secret_key|] eqn:Hs|].
  - rewrite (upload_with_run b file_name w access_key secret_key) by done.
    cbv zeta. unfold upload_file.
    destruct (disk w !! os_path_join "data" file_name) as [[body|]|] eqn:Hfile.
    + destruct (s3_fault w _) as [e|].
      * destruct b; [destruct (isinstance_NoCredentialsError e)
                    |destruct (isinstance_Exception e)]; cbn; eauto 10.
      * cbn. split_and!; [done..|]. exists body. split; [done|]. by destruct b.
    + destruct b; cbn; eauto 10.
    + destruct b; cbn; eauto 10.
  - destruct (upload_with_no_credentials b file_name w) as (var & l & -> & _);
      [by right|]. done.
  - destruct (upload_with_no_credentials b file_name w) as (var & l & -> & _);
      [by left|]. done.
Qed.

(** X1.  A backend whose access key or secret key is not in the
    environment raises [KeyError] for the first missing variable, whatever
    the file name, the local disk and the state of the service: nothing is
    uploaded and nothing is printed. *)
Theorem upload_without_credentials_raises_KeyError
    (b : Backend) (file_name : string) (w : World) :
  environ w !! access_key_var b = None
  ∨ environ w !! secret_key_var b = None →
  ∃ var w',
    upload_with b file_name w = (Raise (KeyError var), w')
    ∧ environ w !! var = None
    ∧ (var = access_key_var b
       ∨ var = secret_key_var b ∧ is_Some (environ w !! access_key_var b))
    ∧ stdout w' = stdout w ∧ buckets w' = buckets w ∧ disk w' = disk w.
Proof.
  intros Hmissing.
  destruct (environ w !! access_key_var b) as [a|] eqn:Ha.
  - destruct Hmissing as [?|Hs]; [done|].
    exists (secret_key_var b).
    destruct b; cbn [upload_with access_key_var secret_key_var] in *;
      [rewrite upload_file_to_wasabi_run|rewrite upload_file_to_s3_run];
      rewrite Ha, Hs; cbv zeta; eexists; (split_and!; [done..| |done|done|done]);
      right; eauto.
  - exists (access_key_var b).
    destruct b; cbn [upload_with access_key_var secret_key_var] in *;
      [rewrite upload_file_to_wasabi_run|rewrite upload_file_to_s3_run];
      rewrite Ha; cbv zeta; eexists; (split_and!; [done..| |done|done|done]);
      by left.
Qed.

Lemma upload_without_credentials_raises_KeyError_witness :
  let w := quiet_world {["AWS_ACCESS_KEY_ID" := "id"]}
                       {["data" := Dir; "data/plan.csv" := File "a,b"]} in
  ∃ var w',
    upload_with S3 "plan.csv" w = (Raise (KeyError var), w')
    ∧ environ w !! var = None
    ∧ (var = access_key_var S3
       ∨ var = secret_key_var S3 ∧ is_Some (environ w !! access_key_var S3))
    ∧ stdout w' = stdout w ∧ buckets w' = buckets w ∧ disk w' = disk w.
Proof.
  intros w.
  apply (upload_without_credentials_raises_KeyError S3 "plan.csv" w).
  right. by vm_compute.
Defined.

(** X2.  What an upload leaves behind, for every file name and world: the
    local disk and the environment are never changed; a URL is returned
    only with the object stored under the one key, unchanged elsewhere,
    and nothing printed; [None] is returned only with exactly one line
    printed and the object store as it was; an exception leaves both the
    object store and the output as they were. *)
Theorem upload_effects (b : Backend) (file_name : string) (w : World) :
  let r := upload_with b file_name w in
  let key := os_path_basename file_name in
  disk r.2 = disk w ∧ environ r.2 = environ w
  ∧ match r.1 with
    | Return (Some url) =>
        url = public_url bucket_name (host_of b) key
        ∧ stdout r.2 = stdout w
        ∧ ∃ body,
            disk w !! os_path_join "data" file_name = Some (File body)
            ∧ buckets r.2
              = <[("https://" +:+ host_of b, bucket_name, key)
                  := mkS3Object body "public-read"]> (buckets w)
    | Return None =>
        buckets r.2 = buckets w ∧ ∃ line, stdout r.2 = stdout w ++ [line]
    | Raise e => buckets r.2 = buckets w ∧ stdout r.2 = stdout w
    end.
Proof.
  pose proof (upload_with_effects b file_name w) as H. cbv zeta in *.
  by destruct H as (? & ? & _ & ?).
Qed.

(** *** Object keys *)

Lemma after_last_slash_None (s : string) :
  after_last_slash s = None ↔ char_in SLASH s = false.
Proof.
  induction s as [|c s IH]; [done|]. cbn [after_last_slash char_in].
  rewrite (Ascii.eqb_sym SLASH c).
  destruct (after_last_slash s) as [t|].
  - split; [done|]. intros [_ H]%orb_false_iff. by apply IH in H.
  - destruct (Ascii.eqb c SLASH); cbn [orb]; [done|].
    split; intros _; [by apply IH|done].
Qed.

Lemma after_last_slash_Some (s t : string) :
  after_last_slash s = Some t → char_in SLASH t = false.
Proof.
  revert t. induction s as [|c s IH]; intros t; [done|].
  cbn [after_last_slash].
  destruct (after_last_slash s) as [t'|] eqn:Ht.
  - intros [= <-]. by apply IH.
  - destruct (Ascii.eqb c SLASH); [|done]. intros [= <-].
    by apply after_last_slash_None.
Qed.

Lemma after_last_slash_app (s t : string) :
  after_last_slash (s +:+ t)
  = match after_last_slash t with
    | Some u => Some u
    | None => (λ u, u +:+ t) <$> after_last_slash s
    end.
Proof.
  induction s as [|c s IH].
  { rewrite string_app_nil_l. by destruct (after_last_slash t). }
  rewrite string_app_cons. cbn [after_last_slash]. rewrite IH.
  destruct (after_last_slash t); [done|].
  destruct (after_last_slash s); [done|]. cbn.
  by destruct (Ascii.eqb c SLASH).
Qed.

Lemma os_path_basename_join_data (file_name : string) :
  os_path_basename (os_path_join "data" file_name) = os_path_basename file_name.
Proof.
  unfold os_path_join. case_bool_decide; [done|]. cbn [is_empty orb].
  change (endswith_char "data" SLASH) with false. cbv iota.
  change (String SLASH EmptyString +:+ file_name) with (String SLASH file_name).
  rewrite !os_path_basename_after_last_slash.
  rewrite (after_last_slash_app "data" (String SLASH file_name)).
  cbn [after_last_slash]. change (Ascii.eqb SLASH SLASH) with true.
  by destruct (after_last_slash file_name).
Qed.

(** X3.  The object key of both backends is the last component of the
    file name: it never contains a slash, so objects sit flat in the
    bucket; it is empty when the file name ends with a slash; and it is
    also the basename of the local path the upload reads. *)
Theorem object_key_is_flat (file_name : string) :
  last_item (str_split file_name SLASH) = os_path_basename file_name
  ∧ char_in SLASH (os_path_basename file_name) = false
  ∧ (endswith_char file_name SLASH = true →
     os_path_basename file_name = EmptyString)
  ∧ os_path_basename (os_path_join "data" file_name)
    = os_path_basename file_name.
Proof.
  split_and!.
  - apply split_last_is_basename.
  - rewrite os_path_basename_after_last_slash.
    destruct (after_last_slash file_name) as [t|] eqn:Ht.
    + by apply after_last_slash_Some in Ht.
    + by apply after_last_slash_None.
  - rewrite os_path_basename_after_last_slash.
    induction file_name as [|c s IH]; [done|].
    cbn [endswith_char after_last_slash]. destruct s as [|d s].
    + intros ->%Ascii.eqb_eq. done.
    + intros Hend. specialize (IH Hend).
      destruct (after_last_slash (String d s)) as [t|] eqn:Ht; [done|].
      cbn in IH. done.
  - apply os_path_basename_join_data.
Qed.

(** X4.  Two file names with the same last component share one object:
    the two uploads return the same URL, and after the second upload the
    object under that key holds the second file, not the first. *)
Theorem same_basename_same_object
    (b : Backend) (file1 file2 : string) (w w1 w2 : World) (url1 url2 : string) :
  os_path_basename file1 = os_path_basename file2 →
  upload_with b file1 w = (Return (Some url1), w1) →
  upload_with b file2 w1 = (Return (Some url2), w2) →
  url1 = url2
  ∧ ∃ body2,
      disk w !! os_path_join "data" file2 = Some (File body2)
      ∧ buckets w2
        = <[("https://" +:+ host_of b, bucket_name, os_path_basename file2)
            := mkS3Object body2 "public-read"]> (buckets w).
Proof.
  intros Hkey Hrun1 Hrun2.
  pose proof (upload_with_effects b file1 w) as H1.
  pose proof (upload_with_effects b file2 w1) as H2.
  cbv zeta in *. rewrite Hrun1 in H1. rewrite Hrun2 in H2. cbn [fst snd] in *.
  destruct H1 as (Hdisk1 & _ & _ & -> & _ & body1 & _ & Hb1).
  destruct H2 as (_ & _ & _ & -> & _ & body2 & Hfile2 & Hb2).
  split; [by rewrite Hkey|]. exists body2. split; [by rewrite <-Hdisk1|].
  by rewrite Hb2, Hb1, Hkey, insert_insert_eq.
Qed.

Lemma same_basename_same_object_witness :
  let w := quiet_world {["AWS_ACCESS_KEY_ID" := "id"; "AWS_SECRET_ACCESS_KEY" := "key"]}
                       {["data" := Dir; "data/a" := Dir; "data/b" := Dir;
                         "data/a/plan.csv" := File "1"; "data/b/plan.csv" := File "2"]} in
  let url := "https://tesa-medication-schedules.s3.ap-southeast-1.amazonaws.com/plan.csv" in
  let w1 := (upload_with S3 "a/plan.csv" w).2 in
  let w2 := (upload_with S3 "b/plan.csv" w1).2 in
  url = url
  ∧ ∃ body2,
      disk w !! os_path_join "data" "b/plan.csv" = Some (File body2)
      ∧ buckets w2
        = <[("https://" +:+ host_of S3, bucket_name, os_path_basename "b/plan.csv")
            := mkS3Object body2 "public-read"]> (buckets w).
Proof.
  intros w url w1 w2.
  apply (same_basename_same_object S3 "a/plan.csv" "b/plan.csv" w w1 w2 url url).
  - by vm_compute.
  - apply pair_eta. by vm_compute.
  - apply pair_eta. by vm_compute.
Defined.

(** ** [create_csv]: what it changes, how it fails, how it composes *)

Lemma create_csv_returns header data file_name w p w' :
  create_csv header data file_name w = (Return p, w') →
  let d := <["data" := Dir]> (disk w) in
  p = os_path_join "data" file_name
  ∧ w' = set_disk (<[p := File (csv.writerows (header :: data))]> d)
                  (set_calls (calls w ++ [create_csv_fn]) w)
  ∧ p ≠ "data"
  ∧ os_path_basename p ≠ EmptyString
  ∧ d !! p ≠ Some Dir
  ∧ (canonical p = true →
     lookup_dirs d EmptyString (str_split p SLASH) = None).
Proof.
  intros Hrun. pose proof (create_csv_result header data file_name w) as H.
  cbv zeta in H. rewrite Hrun in H. cbn [fst snd] in H.
  destruct H as (-> & -> & _ & _ & Hlast & Hdir & Hwalk). cbv zeta.
  split_and!; [done|done|apply os_path_join_data_ne| |done|].
  - rewrite split_last_is_basename in Hlast. intros Hbase.
    by rewrite Hbase in Hlast.
  - intros Hcanonical. by apply Hwalk, forallb_removelast.
Qed.

(** *** Paths *)

Lemma char_in_app (c : ascii) (s t : string) :
  char_in c (s +:+ t) = char_in c s || char_in c t.
Proof.
  induction s as [|d s IH]; [done|].
  rewrite string_app_cons. cbn [char_in]. by rewrite IH, orb_assoc.
Qed.

Lemma split_from_no_slash (s : string) : ∀ cur,
  char_in SLASH s = false → split_from cur s SLASH = [cur +:+ s].
Proof.
  induction s as [|c s IH]; intros cur; [by rewrite string_app_nil_r|].
  cbn [char_in split_from]. rewrite (Ascii.eqb_sym SLASH c).
  intros [-> H]%orb_false_iff. rewrite IH by done.
  by rewrite string_app_assoc.
Qed.

Lemma split_from_app (a b : string) : ∀ cur,
  char_in SLASH a = false →
  split_from cur (a +:+ String SLASH b) SLASH
  = (cur +:+ a) :: split_from EmptyString b SLASH.
Proof.
  induction a as [|c a IH]; intros cur.
  { intros _. rewrite string_app_nil_l, string_app_nil_r. cbn [split_from].
    by rewrite Ascii.eqb_refl. }
  rewrite string_app_cons. cbn [char_in split_from].
  rewrite (Ascii.eqb_sym SLASH c). intros [-> H]%orb_false_iff.
  rewrite IH by done. by rewrite string_app_assoc.
Qed.

Lemma str_split_data (file_name : string) :
  str_split ("data/" +:+ file_name) SLASH
  = "data" :: str_split file_name SLASH.
Proof. apply (split_from_app "data" file_name EmptyString). reflexivity. Qed.

Lemma canonical_relative (file_name : string) :
  canonical file_name = true → first_char file_name ≠ Some SLASH.
Proof.
  destruct file_name as [|c s]; [done|]. intros Hc [= ->].
  unfold canonical, str_split in Hc. cbn [split_from] in Hc.
  by rewrite Ascii.eqb_refl in Hc.
Qed.

Lemma canonical_data (file_name : string) :
  canonical file_name = true →
  os_path_join "data" file_name = "data/" +:+ file_name
  ∧ canonical ("data/" +:+ file_name) = true.
Proof.
  intros Hc. split; [by apply os_path_join_data, canonical_relative|].
  unfold canonical. by rewrite str_split_data.
Qed.

Lemma plain_canonical (file_name : string) :
  plain file_name = true →
  canonical file_name = true
  ∧ is_name file_name = true
  ∧ str_split ("data/" +:+ file_name) SLASH = ["data"; file_name]
  ∧ char_in NUL ("data/" +:+ file_name) = false.
Proof.
  unfold plain. intros [[Hname Hslash%negb_true_iff]%andb_true_iff
                        Hnul%negb_true_iff]%andb_true_iff.
  assert (str_split file_name SLASH = [file_name]) as Hsplit
    by (by apply (split_from_no_slash file_name EmptyString)).
  split_and!.
  - unfold canonical. rewrite Hsplit. cbn. by rewrite Hname.
  - done.
  - by rewrite str_split_data, Hsplit.
  - by rewrite char_in_app, Hnul.
Qed.

(** *** Opening *)

Lemma lookup_dirs_agree (d d' : gmap string Node) (comps : list string) :
  ∀ cur,
  (∀ k, d !! k = Some Dir → d' !! k = Some Dir) →
  lookup_dirs d cur comps = None → lookup_dirs d' cur comps = None.
Proof.
  induction comps as [|c [|c' rest] IH]; intros cur Hagree; [done..|].
  cbn [lookup_dirs] in *. destruct (d !! child cur c) as [[?|]|] eqn:E; [done| |done].
  rewrite (Hagree _ E). by apply IH.
Qed.

Lemma is_name_nonempty (c : string) : is_name c = true → is_empty c = false.
Proof. unfold is_name. by destruct (is_empty c). Qed.

Lemma open_w_run (path : string) (w : World) :
  char_in NUL path = false →
  os_fault w (OpenW path) = None →
  is_name (last_item (str_split path SLASH)) = true →
  (forallb is_name (removelast (str_split path SLASH)) = true →
   lookup_dirs (disk w) EmptyString (str_split path SLASH) = None) →
  open_w path w
  = if bool_decide (disk w !! path = Some Dir)
    then (Raise (IsADirectoryError path), w)
    else (Return path, set_disk (<[path := File EmptyString]> (disk w)) w).
Proof.
  intros Hnul Hopen Hlast Hwalk. unfold open_w.
  destruct path as [|c s]; [done|]. cbn [is_empty].
  rewrite Hnul, Hopen. cbv zeta. rewrite Hlast, (is_name_nonempty _ Hlast).
  destruct (forallb is_name _); [by rewrite Hwalk|done].
Qed.

(** [create_csv] when the system refuses nothing and the directories of
    the path exist. *)
Lemma create_csv_lets header data file_name w :
  let p := os_path_join "data" file_name in
  let w1 := set_calls (calls w ++ [create_csv_fn]) w in
  let d := <["data" := Dir]> (disk w) in
  (disk w !! "data" = None → os_fault w (Mkdir "data") = None) →
  char_in NUL p = false →
  lets_write w p →
  is_name (last_item (str_split p SLASH)) = true →
  (forallb is_name (removelast (str_split p SLASH)) = true →
   lookup_dirs d EmptyString (str_split p SLASH) = None) →
  create_csv header data file_name w
  = match disk w !! "data" with
    | Some (File _) => (Raise (FileExistsError "data"), w1)
    | _ =>
        if bool_decide (d !! p = Some Dir)
        then (Raise (IsADirectoryError p), set_disk d w1)
        else (Return p,
              set_disk (<[p := File (csv.writerows (header :: data))]> d) w1)
    end.
Proof.
  intros p w1 d Hmkdir Hnul (Hopen & Hwrite & Hclose) Hlast Hwalk.
  rewrite create_csv_unfold. fold p w1.
  assert (∀ w2, w2 = set_disk d w1 →
    match open_w p w2 with
    | (Raise e, w3) => (Raise e, w3)
    | (Return f, w3) =>
        match for_each (header :: data)
                (λ row, file_write f (csv.writerow row)) w3 with
        | (Return _, w4) =>
            match file_close f w4 with
            | (Return _, w5) => (Return p, w5)
            | (Raise e, w5) => (Raise e, w5)
            end
        | (Raise e, w4) =>
            match file_close f w4 with
            | (Return _, w5) => (Raise e, w5)
            | (Raise e', w5) => (Raise e', w5)
            end
        end
    end
    = if bool_decide (d !! p = Some Dir)
      then (Raise (IsADirectoryError p), set_disk d w1)
      else (Return p,
            set_disk (<[p := File (csv.writerows (header :: data))]> d) w1))
    as Hrest.
  { intros w2 ->. rewrite open_w_run by done. cbn [disk set_disk].
    case_bool_decide; [done|].
    rewrite (write_rows p (header :: data) _ EmptyString);
      [|done|apply lookup_insert_eq].
    unfold file_close. cbn [os_fault set_disk].
    change (os_fault w1) with (os_fault w). rewrite Hclose.
    cbn [disk set_disk]. by rewrite insert_insert_eq, string_app_nil_l. }
  unfold os_makedirs. change (disk w1) with (disk w).
  change (os_fault w1) with (os_fault w).
  destruct (disk w !! "data") as [[c|]|] eqn:E; [done| |].
  - apply Hrest. subst d. rewrite insert_id by done. symmetry.
    apply (set_disk_same w1).
  - rewrite Hmkdir by done. by apply Hrest.
Qed.

(** [create_csv] for a file name of one component, when the system
    refuses nothing. *)
Lemma create_csv_plain header data file_name w :
  let p := "data/" +:+ file_name in
  let w1 := set_calls (calls w ++ [create_csv_fn]) w in
  let d := <["data" := Dir]> (disk w) in
  plain file_name = true →
  os_fault w (Mkdir "data") = None →
  lets_write w p →
  create_csv header data file_name w
  = match disk w !! "data" with
    | Some (File _) => (Raise (FileExistsError "data"), w1)
    | _ =>
        if bool_decide (disk w !! p = Some Dir)
        then (Raise (IsADirectoryError p), set_disk d w1)
        else (Return p,
              set_disk (<[p := File (csv.writerows (header :: data))]> d) w1)
    end.
Proof.
  intros p w1 d (Hcanonical & Hname & Hsplit & Hnul)%plain_canonical
    Hmkdir Hlets.
  destruct (canonical_data file_name Hcanonical) as [Hjoin _].
  pose proof (create_csv_lets header data file_name w) as Hrun.
  cbv zeta in Hrun. rewrite Hjoin in Hrun. fold p w1 d in Hrun.
  assert (d !! p = disk w !! p) as Hp.
  { apply lookup_insert_ne. intros Heq.
    by apply (os_path_join_data_ne file_name); rewrite Hjoin. }
  fold p in Hsplit.
  rewrite Hrun, Hp; [done|done|done|done|by rewrite Hsplit|].
  intros _. rewrite Hsplit. cbn. subst d. by rewrite lookup_insert_eq.
Qed.

(** X5.  When [create_csv] returns for a canonical file name it has
    changed the local disk only: the target [data/<file_name>] now holds
    the rows, [data] is a directory, every other canonical path is as
    before; the environment, the output, the object store and the Connery
    cache are untouched. *)
Theorem create_csv_changes_only_target header data file_name w p w' :
  canonical file_name = true →
  create_csv header data file_name w = (Return p, w') →
  p = "data/" +:+ file_name
  ∧ disk w' !! p = Some (File (csv.writerows (header :: data)))
  ∧ disk w' !! "data" = Some Dir
  ∧ (∀ q, canonical q = true → q ≠ p → q ≠ "data" →
          disk w' !! q = disk w !! q)
  ∧ environ w' = environ w ∧ stdout w' = stdout w ∧ buckets w' = buckets w
  ∧ connery_cache w' = connery_cache w.
Proof.
  intros [Hjoin _]%canonical_data (-> & -> & Hp & _)%create_csv_returns.
  cbn [disk environ stdout buckets connery_cache set_disk set_calls].
  split_and!; [done|apply lookup_insert_eq| |..|done|done|done|done].
  - rewrite lookup_insert_ne by done. apply lookup_insert_eq.
  - intros q _ Hq Hdata. by rewrite !lookup_insert_ne.
Qed.

Lemma create_csv_changes_only_target_witness :
  let w := quiet_world {["HOME" := "/root"]} {["notes.txt" := File "keep"]} in
  let w' := (create_csv ["h"] [["1"]; ["2"; "3"]] "plan.csv" w).2 in
  "data/plan.csv" = "data/" +:+ "plan.csv"
  ∧ disk w' !! "data/plan.csv"
    = Some (File (csv.writerows [["h"]; ["1"]; ["2"; "3"]]))
  ∧ disk w' !! "data" = Some Dir
  ∧ (∀ q, canonical q = true → q ≠ "data/plan.csv" → q ≠ "data" →
          disk w' !! q = disk w !! q)
  ∧ environ w' = environ w ∧ stdout w' = stdout w ∧ buckets w' = buckets w
  ∧ connery_cache w' = connery_cache w.
Proof.
  intros w w'.
  apply (create_csv_changes_only_target ["h"] [["1"]; ["2"; "3"]] "plan.csv" w);
    [done|].
  apply pair_eta. by vm_compute.
Defined.

(** X6.  How [create_csv] fails.  For a file name of one component and a
    system that refuses nothing, the disk decides: [FileExistsError] when
    [data] is a regular file, with the disk as it was;
    [IsADirectoryError] when the target is a directory, with [data]
    made; in every other case the call returns.  Whatever makes a call
    with a canonical file name raise, it leaves the disk as it was, or
    with [data] made, or with [data] made and a prefix of the text in
    the target: a partial write is not cleaned up, and nothing else is
    touched.  A call with an empty file name never returns, and neither
    does a call whose file name has a first directory that does not
    exist under [data]: no directory but [data] is ever made. *)
Theorem create_csv_failure_modes header data file_name w :
  let p := os_path_join "data" file_name in
  let d := <["data" := Dir]> (disk w) in
  let full := csv.writerows (header :: data) in
  let r := create_csv header data file_name w in
  (plain file_name = true → os_fault w (Mkdir "data") = None →
   lets_write w p →
     match disk w !! "data", disk w !! p with
     | Some (File _), _ =>
         r.1 = Raise (FileExistsError "data") ∧ disk r.2 = disk w
     | _, Some Dir => r.1 = Raise (IsADirectoryError p) ∧ disk r.2 = d
     | _, _ => r.1 = Return p
     end)
  ∧ (canonical file_name = true → ∀ e, r.1 = Raise e →
       disk r.2 = disk w ∨ disk r.2 = d
       ∨ ∃ text, is_prefix text full ∧ disk r.2 = <[p := File text]> d)
  ∧ (file_name = EmptyString → ∀ p', r.1 ≠ Return p')
  ∧ (canonical file_name = true → ∀ dir rest,
       file_name = dir +:+ "/" +:+ rest → char_in SLASH dir = false →
       disk w !! ("data/" +:+ dir) ≠ Some Dir →
       ∀ p', r.1 ≠ Return p').
Proof.
  intros p d full r. split_and!.
  - intros Hplain Hmkdir Hlets.
    destruct (plain_canonical _ Hplain) as (Hcanonical & _).
    destruct (canonical_data _ Hcanonical) as [Hjoin _].
    subst r p. rewrite Hjoin in *. rewrite create_csv_plain by done.
    destruct (disk w !! "data") as [[c|]|]; [done|..].
    all: case_bool_decide as Hd; [by rewrite Hd|].
    all: destruct (disk w !! ("data/" +:+ file_name)) as [[c|]|];
      [done|by destruct Hd|done].
  - intros _ e He. pose proof (create_csv_result header data file_name w) as H.
    cbv zeta in H. fold r in H. rewrite He in H. fold p d full in H.
    destruct H as [H|[H|(text & Hprefix & H)]]; rewrite H;
      [by left|by right; left|].
    right; right. by exists text.
  - intros -> p' Hr. pose proof (pair_eta _ _ Hr) as Hrun.
    apply create_csv_returns in Hrun as (-> & _ & _ & Hbase & _).
    apply Hbase. by vm_compute.
  - intros Hcanonical dir rest -> Hdir Hmissing p' Hr.
    pose proof (pair_eta _ _ Hr) as Hrun.
    apply create_csv_returns in Hrun as (-> & _ & _ & _ & _ & Hwalk).
    destruct (canonical_data _ Hcanonical) as [Hjoin Hcanonical'].
    rewrite Hjoin in Hwalk. specialize (Hwalk Hcanonical').
    rewrite str_split_data in Hwalk. unfold str_split in Hwalk.
    change ("/" +:+ rest) with (String SLASH rest) in Hwalk.
    rewrite (split_from_app dir rest EmptyString) in Hwalk by done.
    rewrite string_app_nil_l in Hwalk.
    pose proof (split_from_nonempty rest EmptyString) as Hrest.
    destruct (split_from EmptyString rest SLASH) as [|c l]; [done|].
    cbn [lookup_dirs child is_empty] in Hwalk.
    rewrite lookup_insert_eq in Hwalk.
    change ("data" +:+ String SLASH EmptyString +:+ dir)
      with ("data/" +:+ dir) in Hwalk.
    rewrite lookup_insert_ne in Hwalk by done.
    by destruct (disk w !! ("data/" +:+ dir)) as [[?|]|].
Qed.

Lemma create_csv_failure_modes_witness :
  let disk_full := OSError "[Errno 28] No space left on device" in
  let w := mkWorld ∅ ∅
             (λ request,
                match request with
                | Write _ text =>
                    if bool_decide (text = csv.writerow ["2"])
                    then Some (mkOsFault disk_full 2) else None
                | _ => None
                end)
             [] (λ _, None) ∅ (λ _ _, Return []) (λ _ _, Return EmptyString)
             None [] in
  let r := create_csv ["h"] [["1"]; ["2"]] "plan.csv" w in
  let d := <["data" := Dir]> (disk w) in
  r.1 = Raise disk_full
  ∧ (disk r.2 = disk w ∨ disk r.2 = d
     ∨ ∃ text, is_prefix text (csv.writerows [["h"]; ["1"]; ["2"]])
               ∧ disk r.2 = <[os_path_join "data" "plan.csv" := File text]> d).
Proof.
  intros disk_full w r d.
  assert (r.1 = Raise disk_full) as Hr by (by vm_compute).
  split; [done|].
  by apply (proj1 (proj2 (create_csv_failure_modes
                            ["h"] [["1"]; ["2"]] "plan.csv" w))
              eq_refl disk_full).
Defined.

(** X7.  Calling [create_csv] again with the same canonical file name,
    after a call that returned and when the system refuses nothing of
    the second call, returns the same path and replaces the file: its
    contents are the second header and rows only, nothing of the first
    call is kept or appended to, and every other canonical path is as the
    first call left it. *)
Theorem create_csv_overwrites header1 data1 header2 data2 file_name w p w1 :
  canonical file_name = true →
  create_csv header1 data1 file_name w = (Return p, w1) →
  lets_write w1 p →
  ∃ w2,
    create_csv header2 data2 file_name w1 = (Return p, w2)
    ∧ disk w2 !! p = Some (File (csv.writerows (header2 :: data2)))
    ∧ csv.parse (csv.writerows (header2 :: data2)) = Some (header2 :: data2)
    ∧ ∀ q, canonical q = true → q ≠ p → disk w2 !! q = disk w1 !! q.
Proof.
  intros _ Hrun Hlets.
  pose proof (create_csv_result header1 data1 file_name w) as H.
  cbv zeta in H. rewrite Hrun in H. cbn [fst snd] in H.
  destruct H as (-> & -> & _ & Hnul & Hlast & Hdir & Hwalk).
  set (p := os_path_join "data" file_name) in *.
  set (d := <["data" := Dir]> (disk w)) in *.
  assert (p ≠ "data") as Hp by apply os_path_join_data_ne.
  pose proof (create_csv_lets header2 data2 file_name
                (set_disk (<[p := File (csv.writerows (header1 :: data1))]> d)
                          (set_calls (calls w ++ [create_csv_fn]) w))) as Hrun2.
  cbv zeta in Hrun2. fold p in Hrun2. cbn [disk set_disk set_calls] in Hrun2.
  assert (<[p := File (csv.writerows (header1 :: data1))]> d !! "data"
          = Some Dir) as Hdata
    by (rewrite lookup_insert_ne by done; apply lookup_insert_eq).
  rewrite Hdata, (insert_id _ "data" Dir Hdata) in Hrun2.
  rewrite lookup_insert_eq, bool_decide_false in Hrun2 by done.
  rewrite insert_insert_eq in Hrun2.
  eexists. split; [apply Hrun2; [done|done|done|done|]|].
  - intros Hdirs. eapply lookup_dirs_agree; [|by apply Hwalk].
    intros k Hk. rewrite lookup_insert_ne; [done|]. by intros <-.
  - cbn [disk set_disk]. split_and!; [apply lookup_insert_eq
                                     |apply parse_writerows|].
    intros q _ Hq. by rewrite !(lookup_insert_ne _ p).
Qed.

Lemma create_csv_overwrites_witness :
  let w := quiet_world ∅ ∅ in
  let w1 := (create_csv ["a"; "b"] [["1"; "2"]; ["3"; "4"]] "plan.csv" w).2 in
  ∃ w2,
    create_csv ["c"] [] "plan.csv" w1 = (Return "data/plan.csv", w2)
    ∧ disk w2 !! "data/plan.csv" = Some (File (csv.writerows [["c"]]))
    ∧ csv.parse (csv.writerows [["c"]]) = Some [["c"]]
    ∧ ∀ q, canonical q = true → q ≠ "data/plan.csv" →
           disk w2 !! q = disk w1 !! q.
Proof.
  intros w w1.
  apply (create_csv_overwrites ["a"; "b"] [["1"; "2"]; ["3"; "4"]] ["c"] []
           "plan.csv" w); [done| |done].
  apply pair_eta. by vm_compute.
Defined.



(** ** [create_csv] and the listing *)







(** ** [get_retrieval_tool]: which keys the cache holds *)

Lemma filter_other_id {A} `{EqDecision A} (k : A) (l : list A) :
  k ∉ l → filter (λ x, x ≠ k) l = l.
Proof.
  induction l as [|x l IH]; [done|].
  intros [Hx Hl]%not_elem_of_cons. rewrite filter_cons, decide_True by done.
  by rewrite IH.
Qed.

Lemma filter_other_take_in {A} `{EqDecision A} (k : A) (l : list A) : ∀ n,
  NoDup l → k ∈ take (S n) l →
  filter (λ x, x ≠ k) (take (S n) l) = take n (filter (λ x, x ≠ k) l).
Proof.
  induction l as [|x l IH]; intros n; [by intros _ ?%elem_of_nil|].
  intros [Hx Hl]%NoDup_cons. cbn [take]. rewrite !filter_cons.
  destruct (decide (x ≠ k)) as [Hne|Heq].
  - intros [->|Hin]%elem_of_cons; [done|].
    destruct n as [|n]; [by apply elem_of_nil in Hin|].
    cbn [take]. f_equal. by apply IH.
  - intros _. apply dec_stable in Heq as ->.
    rewrite !filter_other_id; [done|done|].
    intros (i & Hi & _)%elem_of_take. apply Hx.
    by eapply list_elem_of_lookup_2.
Qed.

Lemma filter_other_take_out {A} `{EqDecision A} (k : A) (l : list A) : ∀ n,
  k ∉ take n l → take n (filter (λ x, x ≠ k) l) = take n l.
Proof.
  induction l as [|x l IH]; intros [|n]; [done..|].
  cbn [take]. intros [Hx Hl]%not_elem_of_cons.
  rewrite filter_cons, decide_True by done. cbn [take]. f_equal. by apply IH.
Qed.

Lemma touch_NoDup key recent : NoDup recent → NoDup (touch key recent).
Proof.
  intros H. apply NoDup_cons. split; [|by apply NoDup_filter].
  by intros [? _]%list_elem_of_filter.
Qed.

Lemma recency_snoc keys key : recency (keys ++ [key]) = touch key (recency keys).
Proof. unfold recency. by rewrite foldl_app. Qed.

Lemma recency_NoDup keys : NoDup (recency keys).
Proof.
  induction keys as [|key keys IH] using rev_ind; [constructor|].
  rewrite recency_snoc. by apply touch_NoDup.
Qed.

Lemma cache_remove_keys {K V} `{EqDecision K} (k : K) (l : list (K * V)) :
  (cache_remove k l).*1 = filter (λ x, x ≠ k) l.*1.
Proof.
  unfold cache_remove. induction l as [|y l IH]; [done|].
  rewrite fmap_cons, !filter_cons.
  destruct (decide (y.1 ≠ k)); [by rewrite fmap_cons, IH|done].
Qed.

Lemma removelast_take {A} (l : list A) : removelast l = take (length l - 1) l.
Proof.
  induction l as [|y [|z l] IH]; [done..|].
  change (removelast (y :: z :: l)) with (y :: removelast (z :: l)).
  rewrite IH. cbn [length]. by replace (S (S (length l)) - 1) with (S (S (length l) - 1)) by lia.
Qed.

Lemma lru_keys_step (m : RMemo) recent a d :
  NoDup recent → (entries m).*1 = take 5 recent →
  (entries (get_retrieval_tool a d m).2).*1 = take 5 (touch (a, d) recent).
Proof.
  intros Hnodup Hkeys. unfold touch. cbn [take].
  destruct (cache_lookup (a, d) (entries m)) as [t|] eqn:Hlookup.
  - rewrite (get_retrieval_tool_hit a d m t) by done.
    cbn [snd entries]. rewrite fmap_cons, cache_remove_keys, Hkeys.
    cbn [fst]. f_equal. apply filter_other_take_in; [done|].
    rewrite <-Hkeys. apply cache_lookup_Some in Hlookup.
    apply list_elem_of_fmap. by exists ((a, d), t).
  - rewrite get_retrieval_tool_miss by done. cbn [snd entries].
    apply cache_lookup_None in Hlookup. rewrite Hkeys in Hlookup.
    assert (take 4 (filter (λ x, x ≠ (a, d)) recent) = take 4 recent) as ->.
    { change 4 with (4 `min` 5).
      by rewrite <-!take_take, filter_other_take_out. }
    rewrite <-(length_fmap fst), Hkeys.
    case_bool_decide as Hfull; rewrite fmap_cons; cbn [fst]; f_equal.
    + rewrite removelast_take, <-(length_fmap fst (entries m)), fmap_take.
      rewrite Hkeys, take_take. rewrite length_take in *. f_equal. lia.
    + rewrite Hkeys. rewrite length_take in Hfull.
      rewrite !take_ge by lia. done.
Qed.

Lemma lru_keys_calls keys : ∀ (m : RMemo) recent,
  NoDup recent → (entries m).*1 = take 5 recent →
  (entries (calls_from keys m).2).*1
  = take 5 (foldl (λ recent key, touch key recent) recent keys).
Proof.
  induction keys as [|[a d] keys IH]; intros m recent Hnodup Hkeys; [done|].
  cbn [calls_from foldl fst snd].
  pose proof (lru_keys_step m recent a d Hnodup Hkeys) as Hstep.
  destruct (get_retrieval_tool a d m) as [t m1]. cbn [snd] in Hstep.
  specialize (IH m1 _ (touch_NoDup (a, d) recent Hnodup) Hstep).
  by destruct (calls_from keys m1) as [ts m2].
Qed.

Lemma cache_lookup_elem_of {K V} `{EqDecision K} (k : K) (l : list (K * V)) :
  is_Some (cache_lookup k l) ↔ k ∈ l.*1.
Proof.
  split.
  - intros [v Hv%cache_lookup_Some]. apply list_elem_of_fmap. by exists (k, v).
  - intros Hin. destruct (cache_lookup k l) eqn:H; [done|].
    by apply cache_lookup_None in H.
Qed.

(** X10.  After any sequence of calls made from a fresh interpreter the
    cache of [get_retrieval_tool] holds exactly the five most recently
    used distinct keys, the most recent first.  The next call builds
    nothing and returns an object that exists already when its key is one
    of these five, and builds a new tool at the next free address when it
    is not. *)
Theorem cache_holds_five_most_recent_keys (keys : list (string * string)) a d :
  let m := (calls_from keys fresh_memo).2 in
  let r := get_retrieval_tool a d m in
  (entries m).*1 = take 5 (recency keys)
  ∧ ((a, d) ∈ take 5 (recency keys) →
     cache_lookup (a, d) (entries m) = Some r.1
     ∧ next_address r.2 = next_address m
     ∧ address r.1 < next_address m)
  ∧ ((a, d) ∉ take 5 (recency keys) →
     address r.1 = next_address m
     ∧ next_address r.2 = S (next_address m)).
Proof.
  intros m r.
  assert ((entries m).*1 = take 5 (recency keys)) as Hkeys.
  { apply lru_keys_calls; [constructor|done]. }
  destruct (reachable_inv m) as [log (Hnext & Hlog & Hentries & _)];
    [by exists keys|].
  split_and!; [done|..]; rewrite <-Hkeys; subst r.
  - intros [t Ht]%cache_lookup_elem_of.
    rewrite (get_retrieval_tool_hit a d m t) by done. cbn [fst snd next_address].
    split_and!; [done..|].
    destruct (Hentries _ _ (cache_lookup_Some _ _ _ Ht)) as [Hin _].
    apply list_elem_of_lookup in Hin as [i Hi].
    rewrite (Hlog _ _ Hi), Hnext. by eapply lookup_lt_Some.
  - intros Hnot. rewrite get_retrieval_tool_miss; [done|].
    destruct (cache_lookup (a, d) (entries m)) eqn:H; [|done].
    destruct Hnot. apply cache_lookup_elem_of. by rewrite H.
Qed.

Lemma cache_holds_five_most_recent_keys_witness :
  let keys := [("a", "x"); ("b", "x"); ("c", "x"); ("d", "x"); ("e", "x");
               ("f", "x")] in
  let m := (calls_from keys fresh_memo).2 in
  let r := get_retrieval_tool "a" "x" m in
  address r.1 = next_address m ∧ next_address r.2 = S (next_address m).
Proof.
  intros keys m r.
  apply (proj2 (proj2 (cache_holds_five_most_recent_keys keys "a" "x"))).
  vm_compute. not_in_list.
Defined.

(** X11.  The description is part of the cache key: two calls for the
    same assistant with different descriptions return two different
    objects, however many calls lie between them; both are named
    [Retriever], each carries the description it was asked with, and both
    search with the same filter. *)
Theorem description_is_part_of_the_key (m : RMemo) a d1 others d2 :
  reachable m → d1 ≠ d2 →
  let t1 := (get_retrieval_tool a d1 m).1 in
  let t2 := (get_retrieval_tool a d2
               (calls_from others (get_retrieval_tool a d1 m).2).2).1 in
  address t1 ≠ address t2
  ∧ retriever t1 = retriever t2
  ∧ tool_name t1 = "Retriever" ∧ tool_name t2 = "Retriever"
  ∧ tool_description t1 = d1 ∧ tool_description t2 = d2.
Proof.
  intros [log Hinv]%reachable_inv Hd.
  destruct (memo_inv_step log m a d1 Hinv) as (log1 & Hinv1 & _ & Hin1 & Ht1).
  destruct (get_retrieval_tool a d1 m) as [t1 m1]. cbn [fst snd] in *.
  destruct (memo_inv_calls others log1 m1 Hinv1) as (log2 & Hinv2 & Hpre2 & _).
  destruct (calls_from others m1) as [ts m2]. cbn [fst snd] in *.
  destruct (memo_inv_step log2 m2 a d2 Hinv2)
    as (log3 & Hinv3 & Hpre3 & Hin3 & Ht3).
  destruct (get_retrieval_tool a d2 m2) as [t2 m3]. cbn [fst snd] in *.
  cbv zeta.
  split_and!; [|by rewrite Ht1, Ht3|by rewrite Ht1|by rewrite Ht3
               |by rewrite Ht1|by rewrite Ht3].
  intros Haddr.
  assert (t1 ∈ log3) as Hin1'.
  { destruct Hpre2 as [l2 ->], Hpre3 as [l3 ->].
    apply elem_of_app; left. apply elem_of_app; by left. }
  destruct Hinv3 as (_ & Hlog & _).
  apply list_elem_of_lookup in Hin1' as [i1 Hi1], Hin3 as [i2 Hi2].
  pose proof (Hlog _ _ Hi1). pose proof (Hlog _ _ Hi2).
  assert (t1 = t2) as Heq by congruence.
  rewrite Ht1, Ht3 in Heq. by injection Heq.
Qed.

Lemma description_is_part_of_the_key_witness :
  let t1 := (get_retrieval_tool "asst" "Look up the leaflet" fresh_memo).1 in
  let t2 := (get_retrieval_tool "asst" "Look up the schedule"
               (calls_from [] (get_retrieval_tool "asst" "Look up the leaflet"
                                 fresh_memo).2).2).1 in
  address t1 ≠ address t2
  ∧ retriever t1 = retriever t2
  ∧ tool_name t1 = "Retriever" ∧ tool_name t2 = "Retriever"
  ∧ tool_description t1 = "Look up the leaflet"
  ∧ tool_description t2 = "Look up the schedule".
Proof.
  apply (description_is_part_of_the_key fresh_memo "asst" "Look up the leaflet" []
           "Look up the schedule"); [by exists []|done].
Defined.


(** ** [_get_connery_actions]: what is cached *)

Lemma get_connery_actions_run (w : World) :
  _get_connery_actions w
  = let w1 := set_calls (calls w ++ [get_connery_actions_fn]) w in
    let refused := Raise (ValueError "Did not find runner_url or api_key") in
    match connery_cache w with
    | Some tools => (Return tools, w1)
    | None =>
        match environ w !! "CONNERY_RUNNER_URL",
              environ w !! "CONNERY_RUNNER_API_KEY" with
        | Some url, Some key =>
            if is_empty url || is_empty key then (refused, w1)
            else match connery_list_actions w url key with
                 | Return ids =>
                     (Return (ConneryAction <$> ids),
                      set_connery_cache (Some (ConneryAction <$> ids)) w1)
                 | Raise e => (Raise e, w1)
                 end
        | _, _ => (refused, w1)
        end
    end.
Proof.
  unfold _get_connery_actions. rewrite run_bind. cbn [enter].
  rewrite run_bind. unfold cache_get. cbn [connery_cache set_calls].
  cbv zeta. destruct (connery_cache w) as [tools|]; [done|].
  rewrite run_bind. unfold os_environ_get at 1. rewrite run_bind.
  unfold os_environ_get at 1. rewrite run_bind. cbn [environ set_calls].
  unfold ConneryService.
  destruct (environ w !! "CONNERY_RUNNER_URL") as [url|]; [|done].
  destruct (environ w !! "CONNERY_RUNNER_API_KEY") as [key|]; [|done].
  destruct (is_empty url || is_empty key); [done|].
  cbn [mret M_ret]. rewrite run_bind. unfold ConneryToolkit_get_tools.
  cbn [connery_list_actions set_calls fst snd].
  by destruct (connery_list_actions w _ _).
Qed.

(** X12.  [_get_connery_actions] asks the runner at most once per
    process: when a call has returned, every later call, in whatever
    environment and whatever the runner would answer by then, returns the
    same tools and does nothing else; a call that raises caches nothing,
    so that the next call reads the environment again. *)
Theorem connery_actions_fetched_once (w : World) :
  (∀ tools w1,
     _get_connery_actions w = (Return tools, w1) →
     ∀ w2, connery_cache w2 = connery_cache w1 →
       _get_connery_actions w2
       = (Return tools, set_calls (calls w2 ++ [get_connery_actions_fn]) w2))
  ∧ (∀ e w1,
       _get_connery_actions w = (Raise e, w1) →
       connery_cache w1 = None
       ∧ w1 = set_calls (calls w ++ [get_connery_actions_fn]) w).
Proof.
  rewrite get_connery_actions_run. cbv zeta. split.
  - intros tools w1 Hrun w2 Hcache. rewrite get_connery_actions_run. cbv zeta.
    rewrite Hcache. clear Hcache.
    destruct (connery_cache w) as [cached|] eqn:Hw;
      [injection Hrun as <- <-; cbn [connery_cache set_calls]; by rewrite Hw|].
    destruct (environ w !! "CONNERY_RUNNER_URL") as [url|]; [|done].
    destruct (environ w !! "CONNERY_RUNNER_API_KEY") as [key|]; [|done].
    destruct (is_empty url || is_empty key); [done|].
    destruct (connery_list_actions w url key) as [ids|e]; [|done].
    by injection Hrun as <- <-.
  - intros e w1 Hrun.
    destruct (connery_cache w) as [cached|] eqn:Hw; [done|].
    destruct (environ w !! "CONNERY_RUNNER_URL") as [url|];
      [|injection Hrun as <- <-; by cbn [connery_cache set_calls]].
    destruct (environ w !! "CONNERY_RUNNER_API_KEY") as [key|];
      [|injection Hrun as <- <-; by cbn [connery_cache set_calls]].
    destruct (is_empty url || is_empty key);
      [injection Hrun as <- <-; by cbn [connery_cache set_calls]|].
    destruct (connery_list_actions w url key) as [ids|e']; [done|].
    injection Hrun as <- <-; by cbn [connery_cache set_calls].
Qed.

Lemma connery_actions_fetched_once_witness :
  let w := mkWorld {["CONNERY_RUNNER_URL" := "https://runner";
                      "CONNERY_RUNNER_API_KEY" := "secret"]} ∅ (λ _, None) []
                   (λ _, None) ∅ (λ _ _, Return ["send-email"])
                   (λ _ _, Return EmptyString) None [] in
  let w1 := (_get_connery_actions w).2 in
  let w2 := set_environ ∅ w1 in
  _get_connery_actions w2
  = (Return [ConneryAction "send-email"],
     set_calls (calls w2 ++ [get_connery_actions_fn]) w2).
Proof.
  intros w w1 w2.
  apply (proj1 (connery_actions_fetched_once w) [ConneryAction "send-email"] w1);
    [|done].
  apply pair_eta. by vm_compute.
Defined.

(** ** The registry, the options and the start-up check *)

Lemma TOOL_OPTIONS_lookup (identifier v : string) :
  TOOL_OPTIONS !! identifier = Some v
  ↔ v = identifier ∧ ∃ e, value e = identifier.
Proof.
  unfold TOOL_OPTIONS. rewrite <-elem_of_list_to_map.
  - rewrite list_elem_of_fmap. split.
    + intros (e & [= -> ->] & _). eauto.
    + intros (-> & e & <-). exists e. split; [done|].
      unfold members. rewrite !elem_of_cons. destruct e; auto 6.
  - apply (bool_decide_unpack _). by vm_compute.
Qed.

(** X13.  [TOOL_OPTIONS] maps the value of every member of
    [AvailableTools] to itself and holds nothing else, five entries in
    all.  An identifier resolves in [TOOLS] exactly when it is one of
    these options other than [Retrieval]: that option is offered and has
    no factory. *)
Theorem tool_options_and_registry (identifier : string) (w : World) :
  (∀ v, TOOL_OPTIONS !! identifier = Some v
        ↔ v = identifier ∧ ∃ e, value e = identifier)
  ∧ size TOOL_OPTIONS = length members
  ∧ ((∃ v, TOOLS_getitem identifier w = (Return v, w))
     ↔ is_Some (TOOL_OPTIONS !! identifier) ∧ identifier ≠ value RETRIEVAL)
  ∧ (TOOLS_getitem identifier w = (Raise (KeyError identifier), w)
     ↔ TOOL_OPTIONS !! identifier = None ∨ identifier = value RETRIEVAL).
Proof.
  split_and!.
  - intros v. apply TOOL_OPTIONS_lookup.
  - by vm_compute.
  - rewrite TOOLS_getitem_run. split.
    + intros [v Hv]. repeat case_bool_decide; try done; subst identifier.
      all: split; [|done].
      all: eexists; apply TOOL_OPTIONS_lookup; split; [done|by eexists].
    + intros [[v [-> [e <-]]%TOOL_OPTIONS_lookup] Hne].
      destruct e; [by eexists|done|by eexists..].
  - rewrite TOOLS_getitem_run. split.
    + intros Hrun. repeat case_bool_decide; try done.
      destruct (TOOL_OPTIONS !! identifier) as [v|] eqn:Hv; [|by left].
      apply TOOL_OPTIONS_lookup in Hv as [-> [e <-]]. destruct e; try done.
      by right.
    + intros [Hnone| ->]; [|done].
      repeat case_bool_decide; try done; subst identifier.
      all: by vm_compute in Hnone.
Qed.

(** X14.  The factory registered under [GET_ALL_FILES] is the function
    [get_all_files_in_data_folder], not the class [GetFilesInDataFolder]:
    called, it returns the names of the files in [data] and no tool.  The
    other factories return tools, and none of them returns the listing
    tool (for the Connery factory, in a process that has not cached
    anything else). *)
Theorem registry_returns_file_names_for_listing
    (k : AvailableTools) (v : Callable) (w : World) o w' :
  (k, v) ∈ TOOLS →
  (k = CONNERY → connery_cache w = None) →
  call v w = (Return o, w') →
  v ≠ GetFilesInDataFolder_cls
  ∧ (GetFilesInDataFolder_tool ∉ tools_of o)
  ∧ (k = GET_ALL_FILES →
     o = PyStrList (dir_entries (disk w) "data") ∧ tools_of o = [])
  ∧ (k ≠ GET_ALL_FILES → (∃ l, o = PyToolList l) ∨ (∃ t, o = PyTool t)).
Proof.
  intros Hin Hcache Hcall. unfold TOOLS in Hin.
  repeat (apply elem_of_cons in Hin as [[= -> ->]|Hin]);
    [..|by apply elem_of_nil in Hin].
  - cbn [call] in Hcall. rewrite run_bind, get_connery_actions_run in Hcall.
    cbv zeta in Hcall. rewrite Hcache in Hcall by done.
    destruct (environ w !! "CONNERY_RUNNER_URL") as [url|]; [|done].
    destruct (environ w !! "CONNERY_RUNNER_API_KEY") as [key|]; [|done].
    destruct (is_empty url || is_empty key); [done|].
    destruct (connery_list_actions w url key) as [ids|e]; [|done].
    injection Hcall as <- <-. split_and!; [done| |done|left; by eexists].
    cbn [tools_of]. by intros (id & ? & _)%list_elem_of_fmap.
  - cbn [call] in Hcall. rewrite !run_bind in Hcall. cbn in Hcall.
    injection Hcall as <- <-.
    split_and!; [done|cbn [tools_of]; not_in_list|done|].
    intros _. right. by eexists.
  - cbn [call] in Hcall. rewrite !run_bind in Hcall. cbn in Hcall.
    injection Hcall as <- <-.
    split_and!; [done|cbn [tools_of]; not_in_list|done|].
    intros _. right. by eexists.
  - cbn [call] in Hcall.
    rewrite run_bind, get_all_files_in_data_folder_run in Hcall.
    cbv zeta in Hcall. destruct (disk w !! "data") as [[c|]|]; [done| |done].
    injection Hcall as <- <-.
    split_and!; [done|cbn [tools_of]; apply not_elem_of_nil|done|done].
Qed.

Lemma registry_returns_file_names_for_listing_witness :
  let w := quiet_world ∅ {["data" := Dir; "data/plan.csv" := File "a,b"]} in
  let r := call get_all_files_in_data_folder_fn w in
  get_all_files_in_data_folder_fn ≠ GetFilesInDataFolder_cls
  ∧ (GetFilesInDataFolder_tool ∉ tools_of (PyStrList ["plan.csv"]))
  ∧ (GET_ALL_FILES = GET_ALL_FILES →
     PyStrList ["plan.csv"] = PyStrList (dir_entries (disk w) "data")
     ∧ tools_of (PyStrList ["plan.csv"]) = [])
  ∧ (GET_ALL_FILES ≠ GET_ALL_FILES →
     (∃ l, PyStrList ["plan.csv"] = PyToolList l)
     ∨ (∃ t, PyStrList ["plan.csv"] = PyTool t)).
Proof.
  intros w r.
  apply (registry_returns_file_names_for_listing GET_ALL_FILES
           get_all_files_in_data_folder_fn w (PyStrList ["plan.csv"]) r.2).
  - unfold TOOLS. rewrite !elem_of_cons. auto 6.
  - done.
  - apply pair_eta. by vm_compute.
Defined.


